(** * update_rustdoc: the README -> src/RUSTDOC.md section rewriter

    A shallow embedding of [scripts/update_rustdoc.py]: the upward search for
    the project root, the three regular expressions the script hands to
    Python's [re] module, the [## Modules] section rewriter built from them,
    the top-level [main] with its filesystem and console effects, and the
    entry point that turns its result into the exit status of the process. *)

From Stdlib Require Import List NArith Ascii String Bool Arith Lia.
From stdpp Require Import gmap strings.
Import ListNotations.

(** ** Text: Python [str] values as lists of code points *)

Module Text.

Definition char := N.
Definition text := list char.

Definition chr (a : ascii) : char := N_of_ascii a.
Definition str (s : string) : text := List.map N_of_ascii (list_ascii_of_string s).

Definition LF : char := 10%N.
Definition BANG : char := chr "!".
Definition LBRACK : char := chr "[".
Definition RBRACK : char := chr "]".
Definition LPAREN : char := chr "(".
Definition RPAREN : char := chr ")".
Definition HASH : char := chr "#".

(** [\s] on a [str] pattern: the code points for which [str.isspace] holds. *)
Definition py_isspace (c : char) : bool :=
  ((9 <=? c) && (c <=? 13) || (28 <=? c) && (c <=? 32)
   || (c =? 133) || (c =? 160) || (c =? 5760)
   || (8192 <=? c) && (c <=? 8202)
   || (c =? 8232) || (c =? 8233) || (c =? 8239) || (c =? 8287)
   || (c =? 12288))%N.

(** The negated one-character sets [[^\]]] and [[^)]]. *)
Definition not_rbrack (c : char) : bool := negb (c =? RBRACK)%N.
Definition not_rparen (c : char) : bool := negb (c =? RPAREN)%N.

(** [s.startswith(p)], returning what follows the prefix. *)
Fixpoint strip_prefix (p s : text) : option text :=
  match p, s with
  | [], _ => Some s
  | x :: p', y :: s' => if (x =? y)%N then strip_prefix p' s' else None
  | _ :: _, [] => None
  end.

(** Python's [s[i:j]] for [0 <= i <= j]. *)
Definition slice (i j : nat) (s : text) : text := firstn (j - i) (skipn i s).

End Text.
Export Text.

(** ** Text files as bytes

    What [Path.read_text(encoding="utf-8")] makes of the bytes of a file and
    what [Path.write_text(t, encoding="utf-8")] stores for a text, on POSIX:
    strict UTF-8, universal newlines when reading, [\n] written as it is. *)

Module Codec.

(** A byte, [0..255]. *)
Definition octet := N.

Definition CR : char := 13%N.

Definition between (lo hi b : N) : bool := ((lo <=? b) && (b <=? hi))%N.

(** A continuation byte [10xxxxxx]. *)
Definition continuation (b : octet) : bool := between 128 191 b.

(** The second byte after a three-byte lead [b0] and after a four-byte lead:
    overlong forms, surrogates and code points above [U+10FFFF] are
    ill-formed. *)
Definition second_of_three (b0 b1 : octet) : bool :=
  if (b0 =? 224)%N then between 160 191 b1
  else if (b0 =? 237)%N then between 128 159 b1
  else continuation b1.

Definition second_of_four (b0 b1 : octet) : bool :=
  if (b0 =? 240)%N then between 144 191 b1
  else if (b0 =? 244)%N then between 128 143 b1
  else continuation b1.

(** [bs.decode("utf-8")]; [None] stands for a [UnicodeDecodeError]. *)
Fixpoint utf8_decode (bs : list octet) : option text :=
  match bs with
  | [] => Some []
  | b0 :: r0 =>
      if (b0 <? 128)%N then cons b0 <$> utf8_decode r0
      else if between 194 223 b0 then
        match r0 with
        | b1 :: r1 =>
            if continuation b1
            then cons ((b0 - 192) * 64 + (b1 - 128))%N <$> utf8_decode r1
            else None
        | _ => None
        end
      else if between 224 239 b0 then
        match r0 with
        | b1 :: b2 :: r2 =>
            if second_of_three b0 b1 && continuation b2
            then cons ((b0 - 224) * 4096 + (b1 - 128) * 64 + (b2 - 128))%N
                   <$> utf8_decode r2
            else None
        | _ => None
        end
      else if between 240 244 b0 then
        match r0 with
        | b1 :: b2 :: b3 :: r3 =>
            if second_of_four b0 b1 && continuation b2 && continuation b3
            then cons ((b0 - 240) * 262144 + (b1 - 128) * 4096
                       + (b2 - 128) * 64 + (b3 - 128))%N
                   <$> utf8_decode r3
            else None
        | _ => None
        end
      else None
  end.

(** The UTF-8 form of one code point; a surrogate has none. *)
Definition utf8_encode_char (c : char) : option (list octet) :=
  if (c <? 128)%N then Some [c]
  else if (c <? 2048)%N then Some [192 + c / 64; 128 + c mod 64]%N
  else if (c <? 65536)%N then
    if between 55296 57343 c then None
    else Some [224 + c / 4096; 128 + (c / 64) mod 64; 128 + c mod 64]%N
  else if (c <? 1114112)%N then
    Some [240 + c / 262144; 128 + (c / 4096) mod 64; 128 + (c / 64) mod 64;
          128 + c mod 64]%N
  else None.

(** [t.encode("utf-8")]; [None] stands for a [UnicodeEncodeError]. *)
Fixpoint utf8_encode (t : text) : option (list octet) :=
  match t with
  | [] => Some []
  | c :: t' =>
      match utf8_encode_char c, utf8_encode t' with
      | Some bs, Some bs' => Some (bs ++ bs')
      | _, _ => None
      end
  end.

(** Reading with [newline=None]: [\r\n] and a lone [\r] become [\n]. *)
Fixpoint universal_newlines (t : text) : text :=
  match t with
  | [] => []
  | x :: t' =>
      if (x =? CR)%N then
        LF :: match t' with
              | y :: t'' =>
                  if (y =? LF)%N then universal_newlines t'' else universal_newlines t'
              | [] => []
              end
      else x :: universal_newlines t'
  end.

(** The text [read_text] returns for a file that holds the bytes [bs]. *)
Definition decode_text (bs : list octet) : option text :=
  universal_newlines <$> utf8_decode bs.

(** The bytes [write_text] stores for the text [t]. *)
Definition encode_text (t : text) : option (list octet) := utf8_encode t.

End Codec.
Export Codec.

(** ** The fragment of Python's [re] the script uses

    A backtracking matcher: [exec r c] lists, in the order the engine tries
    them, the cursors at which [r] can stop when started at cursor [c].  The
    first element is the match [re] reports.  Repetition is only ever applied
    to a one-character class in the script's patterns, so [Star] and [Plus]
    take the class directly. *)

Module Re.

Inductive regex : Type :=
| Str (s : text)                 (* a run of literal characters *)
| Bol                            (* [^] under [(?m)] *)
| Eol                            (* [$] under [(?m)] *)
| NotBehind (x : char)           (* [(?<!x)] *)
| Seq (r1 r2 : regex)
| Alt (r1 r2 : regex)            (* [r1|r2], [r1] tried first *)
| Star (p : char -> bool)        (* greedy [p*] *)
| Plus (p : char -> bool)        (* greedy [p+] *)
| Group (r : regex).             (* [(?P<label>r)] *)

(** A position in the subject string: the characters already passed
    (nearest first), those still ahead, and the text of the named group. *)
Record cursor : Type := Cursor { behind : text; ahead : text; label : text }.

Definition at_start (b a : text) : cursor := Cursor b a [].

(** Greedy repetition: the longest run first, then shorter ones. *)
Fixpoint greedy (p : char -> bool) (b a lab : text) : list cursor :=
  match a with
  | x :: a' => (if p x then greedy p (x :: b) a' lab else []) ++ [Cursor b a lab]
  | [] => [Cursor b a lab]
  end.

Definition captured (c c' : cursor) : text :=
  rev (firstn (length (behind c') - length (behind c)) (behind c')).

Fixpoint exec (r : regex) (c : cursor) : list cursor :=
  match r with
  | Str s =>
      match strip_prefix s (ahead c) with
      | Some a' => [Cursor (rev s ++ behind c) a' (label c)]
      | None => []
      end
  | Bol =>
      match behind c with
      | [] => [c]
      | x :: _ => if (x =? LF)%N then [c] else []
      end
  | Eol =>
      match ahead c with
      | [] => [c]
      | x :: _ => if (x =? LF)%N then [c] else []
      end
  | NotBehind x =>
      match behind c with
      | [] => [c]
      | y :: _ => if (y =? x)%N then [] else [c]
      end
  | Seq r1 r2 => flat_map (exec r2) (exec r1 c)
  | Alt r1 r2 => exec r1 c ++ exec r2 c
  | Star p => greedy p (behind c) (ahead c) (label c)
  | Plus p =>
      match ahead c with
      | x :: a' => if p x then greedy p (x :: behind c) a' (label c) else []
      | [] => []
      end
  | Group r =>
      List.map (fun c' => Cursor (behind c') (ahead c') (captured c c')) (exec r c)
  end.

(** A match object: [m.start()], [m.end()] and [m.group('label')]. *)
Record match_obj : Type := Match { m_start : nat; m_end : nat; m_label : text }.

(** [re.search]: the first position, left to right, at which the pattern
    matches, with the first alternative the engine finds there. *)
Fixpoint search_from (r : regex) (b a : text) : option match_obj :=
  match exec r (at_start b a) with
  | c' :: _ => Some (Match (length b) (length (behind c')) (label c'))
  | [] =>
      match a with
      | [] => None
      | x :: a' => search_from r (x :: b) a'
      end
  end.

Definition search (r : regex) (s : text) : option match_obj := search_from r [] s.

(** [re.sub]: copy the subject, replacing each leftmost non-overlapping
    match by [repl] of it.  [skip] counts the characters of the current
    match that are still to be passed over. *)
Fixpoint sub_from (r : regex) (repl : text -> text) (skip : nat) (b a : text) : text :=
  match skip with
  | S n =>
      match a with
      | x :: a' => sub_from r repl n (x :: b) a'
      | [] => []
      end
  | O =>
      match exec r (at_start b a) with
      | c' :: _ =>
          repl (label c') ++
          match length (behind c') - length b with
          | S n =>
              match a with
              | x :: a' => sub_from r repl n (x :: b) a'
              | [] => []
              end
          | O =>
              match a with
              | x :: a' => x :: sub_from r repl 0 (x :: b) a'
              | [] => []
              end
          end
      | [] =>
          match a with
          | x :: a' => x :: sub_from r repl 0 (x :: b) a'
          | [] => []
          end
      end
  end.

Definition sub (r : regex) (repl : text -> text) (s : text) : text :=
  sub_from r repl 0 [] s.

End Re.
Export Re.

Declare Scope regex_scope.
Delimit Scope regex_scope with re.
Infix ">>" := Seq (at level 62, right associativity) : regex_scope.

(** ** The script's patterns and its section rewriter *)

Module Rustdoc.

(** [r'(?m)^##\s+Modules\s*$'] *)
Definition heading_re : regex :=
  (Bol >> Str (str "##") >> Plus py_isspace >> Str (str "Modules") >>
   Star py_isspace >> Eol)%re.

(** [r'(?m)^(?:#|\##)\s+'] *)
Definition next_heading_re : regex :=
  (Bol >> Alt (Str (str "#")) (Str (str "##")) >> Plus py_isspace)%re.

(** [r'(?<!\!)\[(?P<label>[^\]]+)\]\([^)]+\)'] *)
Definition link_re : regex :=
  (NotBehind BANG >> Str [LBRACK] >> Group (Plus not_rbrack) >> Str [RBRACK] >>
   Str [LPAREN] >> Plus not_rparen >> Str [RPAREN])%re.

(** The replacement template [r'[\g<label>]']. *)
Definition link_repl (lab : text) : text := LBRACK :: lab ++ [RBRACK].

(** The [(start_idx, end_idx)] pair of [main], when the heading is found. *)
Definition section_span (t : text) : option (nat * nat) :=
  match search heading_re t with
  | None => None
  | Some m =>
      let start_idx := m_end m in
      let end_idx :=
        match search next_heading_re (skipn start_idx t) with
        | Some m_end => start_idx + m_start m_end
        | None => length t
        end in
      Some (start_idx, end_idx)
  end.

(** Lines 57-69 of [main]: cut at the span, rewrite the links, reassemble. *)
Definition rewrite_span (t : text) (start_idx end_idx : nat) : text :=
  let before := firstn start_idx t in
  let section := slice start_idx end_idx t in
  let after := skipn end_idx t in
  let section_fixed := sub link_re link_repl section in
  before ++ section_fixed ++ after.

(** Lines 43-69 of [main]: from the text read to the text written. *)
Definition rewrite_modules_section (t : text) : text :=
  match section_span t with
  | None => t
  | Some (start_idx, end_idx) => rewrite_span t start_idx end_idx
  end.

End Rustdoc.
Export Rustdoc.

(** ** Paths, the filesystem and the console *)

Module Os.

(** A [pathlib.Path]: the anchor (["/"], or empty for a relative path) and
    the components, nearest first. *)
Record path : Type := Path { anchor : string; parts : list string }.

Global Instance path_eq_dec : EqDecision path.
Proof. solve_decision. Defined.

Global Instance path_countable : Countable path :=
  inj_countable' (fun p => (anchor p, parts p)) (fun ap => Path (fst ap) (snd ap))
                 (fun p => match p with Path _ _ => eq_refl end).

(** [p.parent]: the parent of the anchor (or of ["."]) is itself. *)
Definition parent (p : path) : path := Path (anchor p) (tail (parts p)).

(** [p / name] *)
Definition join (p : path) (name : string) : path := Path (anchor p) (name :: parts p).

(** [str(p)] on POSIX. *)
Definition path_str (p : path) : string :=
  match anchor p, parts p with
  | EmptyString, [] => "."
  | a, ps => a +:+ String.concat "/" (rev ps)
  end.

(** A regular file, by the text [read_text] returns for it, or a directory. *)
Inductive node : Type :=
| File (content : text)
| Dir.

Record world : Type :=
  World { files : gmap path node; stdout : list string; stderr : list string }.

(** [p.exists()] *)
Definition exists_ (fs : gmap path node) (p : path) : bool :=
  match fs !! p with
  | Some _ => true
  | None => false
  end.

(** [p.read_text(encoding="utf-8")]; [None] stands for a raised [OSError].
    The text of a file is what its bytes decode to, see [decode_text]. *)
Definition read_text (fs : gmap path node) (p : path) : option text :=
  match fs !! p with
  | Some (File t) => Some t
  | _ => None
  end.

(** [p.mkdir(parents=True, exist_ok=True)], for [p = Path a ps]. *)
Fixpoint mkdir_parents (fs : gmap path node) (a : string) (ps : list string)
  : option (gmap path node) :=
  match fs !! Path a ps with
  | Some Dir => Some fs
  | Some (File _) => None
  | None =>
      match ps with
      | [] => None
      | _ :: ps' =>
          match mkdir_parents fs a ps' with
          | Some fs' => Some (<[Path a ps := Dir]> fs')
          | None => None
          end
      end
  end.

(** [p.write_text(t, encoding="utf-8")]; the bytes stored are those of
    [encode_text].  Every path is an entry of its own: the filesystem of the
    model has no symbolic or hard links. *)
Definition write_text (fs : gmap path node) (p : path) (t : text)
  : option (gmap path node) :=
  match fs !! parent p, fs !! p with
  | Some Dir, Some Dir => None
  | Some Dir, _ => Some (<[p := File t]> fs)
  | _, _ => None
  end.

Definition print (w : world) (line : string) : world :=
  World (files w) (stdout w ++ [line]) (stderr w).

Definition print_err (w : world) (line : string) : world :=
  World (files w) (stdout w) (stderr w ++ [line]).

Definition set_files (w : world) (fs : gmap path node) : world :=
  World fs (stdout w) (stderr w).

(** How [main] ends: it returns [code], or an [OSError] leaves it. *)
Inductive outcome : Type :=
| Exit (code : Z)
| Raised.

End Os.
Export Os.

Module Script.

Section WithEnvironment.

(** [Path.resolve], [Path.cwd()] and [Path(__file__).resolve().parent]. *)
Variable resolve : path -> path.
Variable cwd script_dir : path.

(** The [while True] loop of [find_project_root], with [cur = Path a ps]:
    the path returned, and the paths [exists()] was called on, in the order
    of the calls.  The right operand of [and] is evaluated only when the
    left one holds. *)
Fixpoint walk_up (fs : gmap path node) (start : path) (a : string) (ps : list string)
  : path * list path :=
  let cur := Path a ps in
  let git := join cur ".git" in
  let readme := join cur "README.md" in
  let src := join cur "src" in
  let next (probed : list path) :=
    match ps with
    | [] => (start, probed)                (* [cur.parent == cur] *)
    | _ :: ps' =>                          (* [cur = cur.parent] *)
        let (found, probed') := walk_up fs start a ps' in
        (found, probed ++ probed')
    end in
  if exists_ fs git then (cur, [git])
  else if exists_ fs readme then
    if exists_ fs src then (cur, [git; readme; src])
    else next [git; readme; src]
  else next [git; readme].

(** [find_project_root] with the [exists()] calls it makes. *)
Definition find_project_root_traced (fs : gmap path node) (start : path)
  : path * list path :=
  let cur := resolve start in
  walk_up fs start (anchor cur) (parts cur).

Definition find_project_root (fs : gmap path node) (start : path) : path :=
  fst (find_project_root_traced fs start).

Definition msg_missing (README root : path) : string :=
  "Error: " +:+ path_str README +:+ " not found (root: " +:+ path_str root +:+ ")".

Definition msg_unchanged : string :=
  "Section '## Modules' not found. Copied README to src/RUSTDOC.md unchanged.".

Definition msg_created (OUTFILE root : path) : string :=
  "Created " +:+ path_str OUTFILE +:+ " (project root: " +:+ path_str root +:+
  ") with Docs.rs style links in '## Modules' section.".

(** [OUTDIR.mkdir(...)], [OUTFILE.write_text(...)], [print(...)], [return 0]. *)
Definition emit (w : world) (OUTDIR OUTFILE : path) (t : text) (line : string)
  : world * outcome :=
  match mkdir_parents (files w) (anchor OUTDIR) (parts OUTDIR) with
  | None => (w, Raised)
  | Some fs1 =>
      match write_text fs1 OUTFILE t with
      | None => (set_files w fs1, Raised)
      | Some fs2 => (print (set_files w fs2) line, Exit 0)
      end
  end.

(** Lines 28-30 of [main]: the working directory first, then the
    directory of the script. *)
Definition project_root (fs : gmap path node) : path :=
  let root := find_project_root fs cwd in
  if negb (exists_ fs (join root "README.md"))
  then find_project_root fs script_dir
  else root.

Definition main (w : world) : world * outcome :=
  let fs := files w in
  let root := project_root fs in
  let README := join root "README.md" in
  let OUTDIR := join root "src" in
  let OUTFILE := join OUTDIR "RUSTDOC.md" in
  if negb (exists_ fs README)
  then (print_err w (msg_missing README root), Exit 1)
  else
    match read_text fs README with
    | None => (w, Raised)
    | Some t =>
        match section_span t with
        | None => emit w OUTDIR OUTFILE t msg_unchanged
        | Some (start_idx, end_idx) =>
            emit w OUTDIR OUTFILE (rewrite_span t start_idx end_idx)
                 (msg_created OUTFILE root)
        end
    end.

(** Lines 76-77, [raise SystemExit(main())], as the process ends: with the
    status [main] returned, or, when an error leaves [main], with the
    traceback on the error stream and status 1.  [tb] stands for the lines
    of the traceback after its first. *)
Definition run_script (tb : list string) (w : world) : world * Z :=
  match main w with
  | (w', Exit code) => (w', code)
  | (w', Raised) =>
      (World (files w') (stdout w')
             (stderr w' ++ "Traceback (most recent call last):" :: tb), 1%Z)
  end.

End WithEnvironment.

End Script.
Export Script.

(** ** Reading aids for the statements

    These do not embed code: they spell out, as executable predicates, the
    notions the properties below are phrased in (lines, trimming, what a
    heading line looks like, maximal runs of a character class). *)

Module Notions.

(** [t.split("\n")] *)
Fixpoint lines (t : text) : list text :=
  match t with
  | [] => [[]]
  | x :: t' =>
      if (x =? LF)%N then [] :: lines t'
      else
        match lines t' with
        | l :: ls => (x :: l) :: ls
        | [] => [[x]]
        end
  end.

(** The longest prefix whose characters are all in the class, and the rest. *)
Fixpoint run (p : char -> bool) (a : text) : text :=
  match a with
  | x :: a' => if p x then x :: run p a' else []
  | [] => []
  end.

Fixpoint after_run (p : char -> bool) (a : text) : text :=
  match a with
  | x :: a' => if p x then after_run p a' else a
  | [] => []
  end.

(** [l.strip()] *)
Definition strip (l : text) : text :=
  rev (after_run py_isspace (rev (after_run py_isspace l))).

(** Two [#], one or more whitespace, [Modules], only whitespace after. *)
Definition heading_shape (l : text) : bool :=
  match strip_prefix (str "##") l with
  | Some r =>
      match run py_isspace r, strip_prefix (str "Modules") (after_run py_isspace r) with
      | _ :: _, Some r' => forallb py_isspace r'
      | _, _ => false
      end
  | None => false
  end.

(** Position [j] of [t] is the first column of a line. *)
Definition line_start (t : text) (j : nat) : bool :=
  match j with
  | O => true
  | S i =>
      match nth_error t i with
      | Some x => (x =? LF)%N
      | None => false
      end
  end.

(** [a] begins with [#] + whitespace or with [##] + whitespace. *)
Definition starts_marker (a : text) : bool :=
  match a with
  | h :: x :: r =>
      (h =? HASH)%N &&
      (py_isspace x ||
       (x =? HASH)%N && match r with y :: _ => py_isspace y | [] => false end)
  | _ => false
  end.

Definition heading_line_at (t : text) (j : nat) : bool :=
  line_start t j && starts_marker (skipn j t).

(** Some [x] is immediately followed by [y]. *)
Fixpoint adjacent (x y : char) (t : text) : bool :=
  match t with
  | u :: ((v :: _) as t') => (u =? x)%N && (v =? y)%N || adjacent x y t'
  | _ => false
  end.

(** Cursor [c'] lies further along the subject of cursor [c]. *)
Definition extends (c c' : cursor) : Prop :=
  exists m, ahead c = m ++ ahead c' /\ behind c' = rev m ++ behind c.

(** [^] and [$] under [(?m)], seen from the neighbouring characters. *)
Definition bol_ok (b : text) : bool :=
  match b with
  | x :: _ => (x =? LF)%N
  | [] => true
  end.

Definition eol_ok (a : text) : bool :=
  match a with
  | x :: _ => (x =? LF)%N
  | [] => true
  end.

(** The pattern never consumes the character [z]. *)
Fixpoint avoids (z : char) (r : regex) : bool :=
  match r with
  | Str s => forallb (fun x => negb (x =? z)%N) s
  | Bol | Eol | NotBehind _ => true
  | Seq r1 r2 | Alt r1 r2 => avoids z r1 && avoids z r2
  | Star p | Plus p => negb (p z)
  | Group r => avoids z r
  end.

(** Two cursors at the same place of two subjects that agree up to and
    including an occurrence of [z], after which one has [X], the other [Y]. *)
Definition same_upto (z : char) (X Y : text) (c1 c2 : cursor) : Prop :=
  behind c1 = behind c2 /\ label c1 = label c2 /\
  exists P, ahead c1 = P ++ z :: X /\ ahead c2 = P ++ z :: Y.

(** What lies just behind a cursor of the rewritten text [ob] and behind the
    matching cursor of the original [b]: the same character, or the [ ] ] of
    a stripped link against the [ ) ] of its source. *)
Definition agree (ob b : text) : Prop :=
  hd_error ob = hd_error b \/ (hd_error ob = Some RBRACK /\ hd_error b = Some RPAREN).

(** The lookbehind [(?<!\!)] seen from a list of passed characters. *)
Definition lookbehind_ok (b : text) : bool :=
  match b with
  | x :: _ => negb (x =? BANG)%N
  | [] => true
  end.

(** The source text [[label](url)] of a link. *)
Definition link_text (L U : text) : text :=
  LBRACK :: L ++ RBRACK :: LPAREN :: U ++ [RPAREN].

(** What the link pattern accepts at the front of [a]: label, URL, rest. *)
Definition link_parse (a : text) : option (text * text * text) :=
  match a with
  | x :: a1 =>
      if (x =? LBRACK)%N then
        match run not_rbrack a1, after_run not_rbrack a1 with
        | (_ :: _) as L, _ :: y :: a2 =>
            if (y =? LPAREN)%N then
              match run not_rparen a2, after_run not_rparen a2 with
              | (_ :: _) as U, _ :: a3 => Some (L, U, a3)
              | _, _ => None
              end
            else None
        | _, _ => None
        end
      else None
  | [] => None
  end.

(** The pieces of [link_parse]: a URL and its [ ) ]; the [ ]( ] and a URL; a
    label, the [ ]( ] and a URL. *)
Definition url_ok (y : text) : bool :=
  match run not_rparen y, after_run not_rparen y with
  | _ :: _, _ :: _ => true
  | _, _ => false
  end.

Definition bracket_url (a : text) : bool :=
  match a with
  | z :: y :: a2 => (z =? RBRACK)%N && (y =? LPAREN)%N && url_ok a2
  | _ => false
  end.

Definition tail_ok (a : text) : bool :=
  match run not_rbrack a with
  | _ :: _ => bracket_url (after_run not_rbrack a)
  | [] => false
  end.

(** A link the pattern accepts occurs somewhere in [s]. *)
Definition link_occurs (s : text) : Prop :=
  exists pre L U post,
    s = pre ++ link_text L U ++ post /\ lookbehind_ok (rev pre) = true /\
    L <> [] /\ U <> [] /\
    forallb not_rbrack L = true /\ forallb not_rparen U = true.

(** The test [main] and [find_project_root] make on a candidate directory. *)
Definition is_root_marker (fs : gmap path node) (p : path) : bool :=
  exists_ fs (join p ".git")
  || exists_ fs (join p "README.md") && exists_ fs (join p "src").

(** The section body [text[start_idx:end_idx]], empty when there is no heading. *)
Definition section_body (t : text) : text :=
  match section_span t with
  | Some (start_idx, end_idx) => slice start_idx end_idx t
  | None => []
  end.

(** The [exists()] calls the loop of [find_project_root] makes on one
    candidate directory. *)
Definition candidate_probes (fs : gmap path node) (cur : path) : list path :=
  join cur ".git" ::
  if exists_ fs (join cur ".git") then []
  else join cur "README.md" ::
       if exists_ fs (join cur "README.md") then [join cur "src"] else [].

(** The heading's shape occurs in [t]: at the first column of a line, two
    [#], one or more whitespace characters (a line break is one), the word
    [Modules], whitespace, and then the end of a line. *)
Definition heading_occurs (t : text) : Prop :=
  exists pre w1 w2 post,
    t = pre ++ (str "##" ++ w1 ++ str "Modules" ++ w2) ++ post /\
    bol_ok (rev pre) = true /\ w1 <> [] /\
    forallb py_isspace w1 = true /\ forallb py_isspace w2 = true /\
    eol_ok post = true.


(** A link the pattern accepts stands at the front of [a], after [b]
    (nearest first): label [L], URL [U], and [r] after it. *)
Definition link_at (b a L U r : text) : Prop :=
  a = link_text L U ++ r /\ lookbehind_ok b = true /\
  L <> [] /\ U <> [] /\
  forallb not_rbrack L = true /\ forallb not_rparen U = true.

(** [links_stripped b a o]: [o] is [a], standing after [b], with its links
    reduced to their bracketed labels, the links being taken from left to
    right, each one starting where the one before has ended or later. *)
Inductive links_stripped : text -> text -> text -> Prop :=
| stripped_end b : links_stripped b [] []
| stripped_link b a L U r o :
    link_at b a L U r ->
    links_stripped (rev (link_text L U) ++ b) r o ->
    links_stripped b a (link_repl L ++ o)
| stripped_char b x a o :
    (forall L U r, ~ link_at b (x :: a) L U r) ->
    links_stripped (x :: b) a o ->
    links_stripped b (x :: a) (x :: o).

End Notions.
Export Notions.

(** The link substitution of [main], from a cursor. *)
Local Abbreviation relink := (sub_from link_re link_repl 0).

(** ** Sample inputs *)

Module Samples.

(** [/home/proj] *)
Definition proj : path := Path "/" ["proj"; "home"].

Definition readme_plain : text := str "# Title" ++ LF :: str "no modules here".

Definition readme_modules : text :=
  str "# Title" ++ LF :: str "## Modules" ++ LF :: str "- [core](./core.md) does X" ++
  LF :: str "- ![logo](logo.png)" ++ LF :: str "## Usage" ++ LF :: str "text".

(** A checkout with a [.git] directory and a [README.md] without the heading. *)
Definition fs_plain : gmap path node :=
  {[ Path "/" [] := Dir; Path "/" ["home"] := Dir; proj := Dir;
     join proj ".git" := Dir; join proj "README.md" := File readme_plain ]}.


(** A checkout marked by [README.md] and [src] only. *)
Definition fs_nogit : gmap path node :=
  {[ Path "/" [] := Dir; Path "/" ["home"] := Dir; proj := Dir;
     join proj "README.md" := File readme_plain; join proj "src" := Dir ]}.


(** The [## Modules] section is the last one of the text. *)
Definition readme_last_section : text :=
  str "## Modules" ++ LF :: str "[a](b) [c](d)".

(** A directory tree with no marker anywhere. *)
Definition fs_bare : gmap path node :=
  {[ Path "/" [] := Dir; Path "/" ["home"] := Dir; proj := Dir;
     join proj "notes.txt" := File [] ]}.

End Samples.
Export Samples.

(** ** Further reading aids *)

Module MoreNotions.

(** Every [ [ ] of [P] comes right after a [!]; [banged] tells whether the
    character before [P] is one. *)
Fixpoint brackets_banged (banged : bool) (P : text) : bool :=
  match P with
  | [] => true
  | x :: P' => (negb (x =? LBRACK)%N || banged) && brackets_banged (x =? BANG)%N P'
  end.

Definition no_lbrack (P : text) : bool := forallb (fun x => negb (x =? LBRACK)%N) P.

End MoreNotions.
Export MoreNotions.

(** * Properties *)

(** ** Text *)

Lemma strip_prefix_Some p s s' : strip_prefix p s = Some s' <-> s = p ++ s'.
Proof.
  revert s; induction p as [|x p IH]; intros [|y s]; simpl; try (split; congruence).
  destruct (N.eqb_spec x y) as [->|Hne].
  - rewrite IH. split; congruence.
  - split; congruence.
Qed.

Lemma strip_prefix_app p s : strip_prefix p (p ++ s) = Some s.
Proof. by apply strip_prefix_Some. Qed.

Lemma run_after_run p a : run p a ++ after_run p a = a.
Proof. induction a as [|x a IH]; simpl; [done|]. destruct (p x); simpl; congruence. Qed.

Lemma run_forallb p a : forallb p (run p a) = true.
Proof. induction a as [|x a IH]; simpl; [done|]. destruct (p x) eqn:E; simpl; [by rewrite E|done]. Qed.

Lemma after_run_head p a x a' : after_run p a = x :: a' -> p x = false.
Proof.
  induction a as [|y a IH]; simpl; [done|].
  destruct (p y) eqn:E; [done|]. intros [= -> _]. done.
Qed.

Lemma run_app p w a : forallb p w = true -> run p (w ++ a) = w ++ run p a.
Proof.
  induction w as [|x w IH]; simpl; [done|].
  intros [-> Hw]%andb_prop. by rewrite IH.
Qed.

Lemma after_run_app p w a : forallb p w = true -> after_run p (w ++ a) = after_run p a.
Proof.
  induction w as [|x w IH]; simpl; [done|].
  intros [-> Hw]%andb_prop. by rewrite IH.
Qed.

(** ** The matcher *)

Lemma extends_refl c : extends c c.
Proof. by exists []. Qed.

Lemma extends_trans c1 c2 c3 : extends c1 c2 -> extends c2 c3 -> extends c1 c3.
Proof.
  intros (m1 & A1 & B1) (m2 & A2 & B2). exists (m1 ++ m2).
  rewrite A1, A2, B2, B1, rev_app_distr, <- !app_assoc. done.
Qed.

Lemma greedy_In p b a lab c' :
  In c' (greedy p b a lab) ->
  exists m, a = m ++ ahead c' /\ behind c' = rev m ++ b /\ label c' = lab /\
            forallb p m = true.
Proof.
  revert b; induction a as [|x a IH]; intros b; simpl.
  - intros [<-|[]]. by exists [].
  - rewrite in_app_iff. intros [H|[<-|[]]]; [|by exists []].
    destruct (p x) eqn:E; [|done].
    destruct (IH _ H) as (m & -> & Hb & Hl & Hm).
    exists (x :: m). simpl. rewrite E, Hb, <- app_assoc. done.
Qed.

Lemma greedy_In_run p b w a lab :
  forallb p w = true -> In (Cursor (rev w ++ b) a lab) (greedy p b (w ++ a) lab).
Proof.
  revert b; induction w as [|x w IH]; intros b; simpl.
  - intros _. destruct a; simpl; [by left|]. apply in_app_iff. right. by left.
  - intros [-> Hw]%andb_prop. apply in_app_iff. left.
    rewrite <- app_assoc. by apply IH.
Qed.

Lemma exec_extends r c c' : In c' (exec r c) -> extends c c'.
Proof.
  revert c c'; induction r as [s| | |x|r1 IH1 r2 IH2|r1 IH1 r2 IH2|p|p|r IH];
    intros c c'; simpl.
  - destruct (strip_prefix s (ahead c)) as [a'|] eqn:E; [|done].
    apply strip_prefix_Some in E. intros [<-|[]]. by exists s.
  - destruct (behind c) as [|x ?]; [|destruct (x =? LF)%N];
      (intros [<-|[]] || done); apply extends_refl.
  - destruct (ahead c) as [|x ?]; [|destruct (x =? LF)%N];
      (intros [<-|[]] || done); apply extends_refl.
  - destruct (behind c) as [|y ?]; [|destruct (y =? x)%N];
      (intros [<-|[]] || done); apply extends_refl.
  - intros (c1 & H1 & H2)%in_flat_map. eauto using extends_trans.
  - intros [H|H]%in_app_iff; eauto.
  - intros (m & A & B & _)%greedy_In. by exists m.
  - destruct (ahead c) as [|x a] eqn:Ea; [done|]. destruct (p x); [|done].
    intros (m & A & B & _)%greedy_In. exists (x :: m). simpl.
    rewrite Ea, A, B, <- app_assoc. done.
  - intros (c1 & <- & H)%in_map_iff. apply IH in H as (m & A & B). by exists m.
Qed.

Lemma exec_Seq r1 r2 c : exec (r1 >> r2)%re c = flat_map (exec r2) (exec r1 c).
Proof. done. Qed.

Lemma exec_Seq_In r1 r2 c c' :
  In c' (exec (r1 >> r2)%re c) <-> exists c1, In c1 (exec r1 c) /\ In c' (exec r2 c1).
Proof. apply in_flat_map. Qed.

Lemma exec_Str_app s b a lab :
  exec (Str s) (Cursor b (s ++ a) lab) = [Cursor (rev s ++ b) a lab].
Proof. simpl. by rewrite strip_prefix_app. Qed.

(** When what follows a greedy repetition cannot start with a character of
    the repeated class, only the longest run can lead to a match. *)
Lemma flat_map_greedy p (f : cursor -> list cursor) b a lab :
  (forall b' y a', p y = true -> f (Cursor b' (y :: a') lab) = []) ->
  flat_map f (greedy p b a lab) = f (Cursor (rev (run p a) ++ b) (after_run p a) lab).
Proof.
  intros Hf. revert b; induction a as [|x a IH]; intros b; simpl.
  - by rewrite app_nil_r.
  - destruct (p x) eqn:E; simpl.
    + rewrite flat_map_app, IH. simpl. rewrite (Hf _ _ _ E), !app_nil_r, <- app_assoc. done.
    + by rewrite app_nil_r.
Qed.

Lemma flat_map_Plus p (f : cursor -> list cursor) b a lab :
  (forall b' y a', p y = true -> f (Cursor b' (y :: a') lab) = []) ->
  flat_map f (exec (Plus p) (Cursor b a lab)) =
  match run p a with
  | [] => []
  | _ :: _ => f (Cursor (rev (run p a) ++ b) (after_run p a) lab)
  end.
Proof.
  intros Hf. destruct a as [|x a]; simpl; [done|].
  destruct (p x) eqn:E; simpl; [|done].
  rewrite flat_map_greedy by done. by rewrite <- app_assoc.
Qed.

(** ** [re.search] *)

Lemma search_from_Some r b a m :
  search_from r b a = Some m ->
  exists pre post c' rest,
    a = pre ++ post /\
    exec r (at_start (rev pre ++ b) post) = c' :: rest /\
    m = Match (length b + length pre) (length (behind c')) (label c') /\
    (forall p1 p2, pre = p1 ++ p2 -> p2 <> [] ->
                   exec r (at_start (rev p1 ++ b) (p2 ++ post)) = []).
Proof.
  revert b; induction a as [|x a IH]; intros b; simpl.
  - destruct (exec r (at_start b [])) as [|c' rest] eqn:E; [done|].
    intros [= <-]. exists [], [], c', rest. simpl. rewrite Nat.add_0_r.
    repeat split; try done. intros [|] [|]; done.
  - destruct (exec r (at_start b (x :: a))) as [|c' rest] eqn:E.
    + intros (pre & post & c' & rest & -> & He & -> & Hmin)%IH.
      exists (x :: pre), post, c', rest. simpl. rewrite <- app_assoc. simpl.
      repeat split; try done.
      * f_equal. lia.
      * intros [|y p1] p2; simpl.
        -- intros <- _. done.
        -- intros [= <- ->] Hp2. rewrite <- app_assoc. by apply Hmin.
    + intros [= <-]. exists [], (x :: a), c', rest. simpl. rewrite Nat.add_0_r.
      repeat split; try done. intros [|] [|]; done.
Qed.

Lemma search_from_None r b a :
  search_from r b a = None <->
  (forall p1 p2, a = p1 ++ p2 -> exec r (at_start (rev p1 ++ b) p2) = []).
Proof.
  revert b; induction a as [|x a IH]; intros b; simpl.
  - destruct (exec r (at_start b [])) as [|c' rest] eqn:E.
    + split; [|done]. intros _ [|] [|]; done.
    + split; [done|]. intros H. specialize (H [] [] eq_refl). simpl in H. by rewrite H in E.
  - destruct (exec r (at_start b (x :: a))) as [|c' rest] eqn:E.
    + rewrite IH. split.
      * intros H [|y p1] p2; simpl; [by intros <-|].
        intros [= <- ->]. rewrite <- app_assoc. by apply H.
      * intros H p1 p2 ->. specialize (H (x :: p1) p2). simpl in H.
        rewrite <- app_assoc in H. by apply H.
    + split; [done|]. intros H. specialize (H [] (x :: a) eq_refl). simpl in H.
      by rewrite H in E.
Qed.

Lemma search_from_found r b pre post c' rest :
  exec r (at_start (rev pre ++ b) post) = c' :: rest ->
  (forall p1 p2, pre = p1 ++ p2 -> p2 <> [] ->
                 exec r (at_start (rev p1 ++ b) (p2 ++ post)) = []) ->
  search_from r b (pre ++ post) =
  Some (Match (length b + length pre) (length (behind c')) (label c')).
Proof.
  revert b; induction pre as [|x pre IH]; intros b He Hmin; simpl in *.
  - rewrite Nat.add_0_r. destruct post; simpl; by rewrite He.
  - pose proof (Hmin [] (x :: pre) eq_refl) as H0. simpl in H0. rewrite H0 by done.
    rewrite <- app_assoc in He. rewrite (IH (x :: b)); simpl.
    + do 2 f_equal. lia.
    + done.
    + intros p1 p2 -> Hp2. specialize (Hmin (x :: p1) p2). simpl in Hmin.
      rewrite <- app_assoc in Hmin. by apply Hmin.
Qed.

Lemma search_Some r t m :
  search r t = Some m ->
  exists pre post c' rest,
    t = pre ++ post /\
    exec r (at_start (rev pre) post) = c' :: rest /\
    m = Match (length pre) (length (behind c')) (label c') /\
    (forall p1 p2, pre = p1 ++ p2 -> p2 <> [] ->
                   exec r (at_start (rev p1) (p2 ++ post)) = []).
Proof.
  intros (pre & post & c' & rest & -> & He & -> & Hmin)%search_from_Some.
  exists pre, post, c', rest. rewrite app_nil_r in He. repeat split; try done.
  intros p1 p2 E Hne. specialize (Hmin p1 p2 E Hne). by rewrite app_nil_r in Hmin.
Qed.

Lemma search_None r t :
  search r t = None <->
  (forall p1 p2, t = p1 ++ p2 -> exec r (at_start (rev p1) p2) = []).
Proof.
  unfold search. rewrite search_from_None.
  split; intros H p1 p2 E; specialize (H p1 p2 E);
    [by rewrite app_nil_r in H|by rewrite app_nil_r].
Qed.

Lemma search_found r pre post c' rest :
  exec r (at_start (rev pre) post) = c' :: rest ->
  (forall p1 p2, pre = p1 ++ p2 -> p2 <> [] ->
                 exec r (at_start (rev p1) (p2 ++ post)) = []) ->
  search r (pre ++ post) = Some (Match (length pre) (length (behind c')) (label c')).
Proof.
  intros He Hmin. unfold search.
  rewrite (search_from_found r [] pre post c' rest); [done| |].
  - by rewrite app_nil_r.
  - intros p1 p2 E Hne. rewrite app_nil_r. by apply Hmin.
Qed.

(** A match reported by [re.search] lies inside the subject. *)
Lemma search_bounds r t m :
  search r t = Some m -> m_start m <= m_end m <= length t.
Proof.
  intros (pre & post & c' & rest & -> & He & -> & _)%search_from_Some.
  assert (In c' (exec r (at_start (rev pre ++ []) post))) as Hin by (rewrite He; by left).
  apply exec_extends in Hin as (m & A & B). simpl in *.
  rewrite B, A, !length_app, !length_rev. simpl. lia.
Qed.

(** ** [re.sub] *)

Lemma sub_from_skip r f m b a :
  sub_from r f (length m) b (m ++ a) = sub_from r f 0 (rev m ++ b) a.
Proof.
  revert b; induction m as [|x m IH]; intros b; simpl; [done|].
  by rewrite IH, <- app_assoc.
Qed.

Lemma sub_from_match r f b a c' rest :
  exec r (at_start b a) = c' :: rest ->
  length b < length (behind c') ->
  sub_from r f 0 b a = f (label c') ++ sub_from r f 0 (behind c') (ahead c').
Proof.
  intros He Hlen.
  assert (In c' (exec r (at_start b a))) as Hin by (rewrite He; by left).
  apply exec_extends in Hin as (m & A & B). simpl in *. subst a.
  rewrite B in Hlen |- *. rewrite length_app, length_rev in Hlen.
  destruct m as [|x m]; simpl in *; [lia|].
  rewrite He, B.
  replace (length ((rev m ++ [x]) ++ b) - length b) with (S (length m))
    by (rewrite !length_app, length_rev; simpl; lia).
  by rewrite sub_from_skip, <- app_assoc.
Qed.

Lemma sub_from_nomatch r f b x a :
  exec r (at_start b (x :: a)) = [] ->
  sub_from r f 0 b (x :: a) = x :: sub_from r f 0 (x :: b) a.
Proof. intros He. simpl. by rewrite He. Qed.

Lemma sub_from_nil r f b :
  exec r (at_start b []) = [] -> sub_from r f 0 b [] = [].
Proof. intros He. simpl. by rewrite He. Qed.

(** ** The link pattern *)

Lemma flat_map_map {A B C} (f : B -> list C) (g : A -> B) l :
  flat_map f (List.map g l) = flat_map (fun x => f (g x)) l.
Proof. induction l as [|x l IH]; simpl; [done|]. by rewrite IH. Qed.

Lemma captured_app b a l m a' l' :
  captured (Cursor b a l) (Cursor (rev m ++ b) a' l') = m.
Proof.
  unfold captured. simpl. rewrite length_app.
  replace (length (rev m) + length b - length b) with (length (rev m) + 0) by lia.
  rewrite firstn_app_2. simpl. by rewrite app_nil_r, rev_involutive.
Qed.

Lemma not_rbrack_false z : not_rbrack z = false -> z = RBRACK.
Proof. unfold not_rbrack. destruct (N.eqb_spec z RBRACK); done. Qed.

Lemma not_rparen_false z : not_rparen z = false -> z = RPAREN.
Proof. unfold not_rparen. destruct (N.eqb_spec z RPAREN); done. Qed.

Lemma strip_prefix_miss x y a : x <> y -> strip_prefix [x] (y :: a) = None.
Proof. intros H. simpl. by destruct (N.eqb_spec x y). Qed.

Lemma exec_Str_miss x y r b a lab :
  x <> y -> exec (Str [x] >> r)%re (Cursor b (y :: a) lab) = [].
Proof. intros H. rewrite exec_Seq. cbn [exec ahead]. by rewrite strip_prefix_miss. Qed.

Lemma exec_Str_hit x r b a lab :
  exec (Str [x] >> r)%re (Cursor b (x :: a) lab) = exec r (Cursor (x :: b) a lab).
Proof.
  rewrite exec_Seq. change (x :: a) with ([x] ++ a). rewrite exec_Str_app.
  simpl. by rewrite app_nil_r.
Qed.

Lemma exec_Group r c :
  exec (Group r) c =
  List.map (fun c' => Cursor (behind c') (ahead c') (captured c c')) (exec r c).
Proof. done. Qed.

(** The pattern, run at a cursor, is the parser [link_parse] behind the
    lookbehind test: at most one way to match, ending right after the [)]. *)
Lemma exec_link b a :
  exec link_re (at_start b a) =
  if lookbehind_ok b then
    match link_parse a with
    | Some (L, U, r) => [Cursor (rev (link_text L U) ++ b) r L]
    | None => []
    end
  else [].
Proof.
  unfold link_re, at_start. rewrite exec_Seq.
  destruct (lookbehind_ok b) eqn:Hb.
  2: { destruct b as [|y b]; simpl in *; [done|]. by destruct (y =? BANG)%N. }
  assert (exec (NotBehind BANG) (Cursor b a []) = [Cursor b a []]) as ->.
  { destruct b as [|y b]; simpl in *; [done|]. by destruct (y =? BANG)%N. }
  cbn [flat_map]. rewrite app_nil_r.
  destruct a as [|x a1]; [done|]. cbn [link_parse].
  destruct (N.eqb_spec x LBRACK) as [->|Hx].
  2: { by rewrite exec_Str_miss. }
  rewrite exec_Str_hit, exec_Seq, exec_Group, flat_map_map.
  rewrite flat_map_Plus.
  2: { intros b' y a' Hy. cbn [behind ahead]. apply exec_Str_miss.
       intros <-. done. }
  change (LBRACK :: b) with (behind (Cursor (LBRACK :: b) a1 [])) at 2.
  rewrite captured_app. cbn [behind ahead].
  pose proof (after_run_head not_rbrack a1) as HR.
  destruct (run not_rbrack a1) as [|l0 L]; [done|].
  destruct (after_run not_rbrack a1) as [|z r1]; [by rewrite exec_Seq|].
  specialize (HR z r1 eq_refl). apply not_rbrack_false in HR as ->.
  rewrite exec_Str_hit. destruct r1 as [|y a2]; [by rewrite exec_Seq|].
  destruct (N.eqb_spec y LPAREN) as [->|Hy].
  2: { by rewrite exec_Str_miss. }
  rewrite exec_Str_hit, exec_Seq, flat_map_Plus.
  2: { intros b' y a' Hy. cbn [exec ahead]. rewrite strip_prefix_miss; [done|].
       intros <-. done. }
  pose proof (after_run_head not_rparen a2) as HR3.
  destruct (run not_rparen a2) as [|u0 U]; [done|].
  destruct (after_run not_rparen a2) as [|z r3]; [done|].
  specialize (HR3 z r3 eq_refl). apply not_rparen_false in HR3 as ->.
  change (RPAREN :: r3) with ([RPAREN] ++ r3). rewrite exec_Str_app.
  do 2 f_equal. unfold link_text. simpl.
  rewrite !rev_app_distr. simpl. rewrite !rev_app_distr. simpl.
  rewrite <- !app_assoc. done.
Qed.

(** ** Links: parsing and rewriting *)

Lemma link_parse_Some a L U r :
  link_parse a = Some (L, U, r) ->
  a = link_text L U ++ r /\ L <> [] /\ U <> [] /\
  forallb not_rbrack L = true /\ forallb not_rparen U = true.
Proof.
  unfold link_parse. destruct a as [|x a1]; [done|].
  destruct (N.eqb_spec x LBRACK) as [->|]; [|done].
  pose proof (run_after_run not_rbrack a1) as E1.
  pose proof (run_forallb not_rbrack a1) as F1.
  pose proof (after_run_head not_rbrack a1) as H1.
  destruct (run not_rbrack a1) as [|l0 L0]; [done|].
  destruct (after_run not_rbrack a1) as [|z [|y a2]]; [done|done|].
  specialize (H1 _ _ eq_refl). apply not_rbrack_false in H1 as ->.
  destruct (N.eqb_spec y LPAREN) as [->|]; [|done].
  pose proof (run_after_run not_rparen a2) as E2.
  pose proof (run_forallb not_rparen a2) as F2.
  pose proof (after_run_head not_rparen a2) as H2.
  destruct (run not_rparen a2) as [|u0 U0]; [done|].
  destruct (after_run not_rparen a2) as [|z a3]; [done|].
  specialize (H2 _ _ eq_refl). apply not_rparen_false in H2 as ->.
  intros [= <- <- <-]. repeat split; try done.
  unfold link_text. rewrite <- E1, <- E2. simpl.
  rewrite <- !app_assoc. simpl. rewrite <- !app_assoc. done.
Qed.

Lemma link_parse_text L U r :
  L <> [] -> U <> [] -> forallb not_rbrack L = true -> forallb not_rparen U = true ->
  link_parse (link_text L U ++ r) = Some (L, U, r).
Proof.
  intros HL HU FL FU. unfold link_text, link_parse. cbn [app].
  rewrite N.eqb_refl, <- !app_assoc. cbn [app].
  rewrite run_app, after_run_app by done. cbn [run after_run].
  change (not_rbrack RBRACK) with false. cbn iota. rewrite app_nil_r.
  destruct L as [|l0 L]; [by destruct HL|]. rewrite N.eqb_refl, <- app_assoc.
  rewrite run_app, after_run_app by done. cbn [run after_run app].
  change (not_rparen RPAREN) with false. cbn iota. rewrite app_nil_r.
  destruct U as [|u0 U]; [by destruct HU|done].
Qed.

Lemma link_occurs_search s : link_occurs s <-> search link_re s <> None.
Proof.
  unfold search. split.
  - intros (pre & L & U & post & -> & Hb & HL & HU & FL & FU).
    rewrite search_from_None. intros H.
    specialize (H pre _ eq_refl). rewrite app_nil_r, exec_link, Hb in H.
    by rewrite link_parse_text in H.
  - destruct (search_from link_re [] s) as [m|] eqn:Hs; [|done]. intros _.
    apply search_from_Some in Hs as (pre & post & c' & rest & -> & He & _).
    rewrite app_nil_r, exec_link in He.
    destruct (lookbehind_ok (rev pre)) eqn:Hb; [|done].
    destruct (link_parse post) as [[[L U] r]|] eqn:Hp; [|done].
    apply link_parse_Some in Hp as (-> & HL & HU & FL & FU).
    exists pre, L, U, r. done.
Qed.

Lemma link_text_length L U : length (link_text L U) = length L + length U + 4.
Proof. unfold link_text. simpl. rewrite !length_app. simpl. rewrite length_app. simpl. lia. Qed.

Lemma link_repl_length L : length (link_repl L) = length L + 2.
Proof. unfold link_repl. simpl. rewrite length_app. simpl. lia. Qed.

Lemma relink_match b a L U r :
  lookbehind_ok b = true -> link_parse a = Some (L, U, r) ->
  relink b a = link_repl L ++ relink (rev (link_text L U) ++ b) r.
Proof.
  intros Hb Hp.
  rewrite (sub_from_match link_re link_repl b a
             (Cursor (rev (link_text L U) ++ b) r L) []).
  - done.
  - by rewrite exec_link, Hb, Hp.
  - cbn [behind]. rewrite length_app, length_rev, link_text_length. lia.
Qed.

Lemma relink_copy b x a :
  lookbehind_ok b = false \/ link_parse (x :: a) = None ->
  relink b (x :: a) = x :: relink (x :: b) a.
Proof.
  intros H. apply sub_from_nomatch. rewrite exec_link.
  destruct H as [->| ->]; [done|]. by destruct (lookbehind_ok b).
Qed.

Lemma relink_nil b : relink b [] = [].
Proof. apply sub_from_nil. rewrite exec_link. by destruct (lookbehind_ok b). Qed.

(** The three ways [re.sub] can proceed at a cursor. *)
Lemma relink_cases b a :
  (a = [] /\ relink b a = []) \/
  (exists x a', a = x :: a' /\ relink b a = x :: relink (x :: b) a' /\
                exec link_re (at_start b a) = []) \/
  (exists L U r, a = link_text L U ++ r /\ lookbehind_ok b = true /\
                 link_parse a = Some (L, U, r) /\
                 relink b a = link_repl L ++ relink (rev (link_text L U) ++ b) r).
Proof.
  destruct a as [|x a]; [left; split; [done|apply relink_nil]|].
  destruct (lookbehind_ok b) eqn:Hb.
  - destruct (link_parse (x :: a)) as [[[L U] r]|] eqn:Hp.
    + right; right. exists L, U, r.
      pose proof (link_parse_Some _ _ _ _ Hp) as (E & _).
      repeat split; try done. by apply relink_match.
    + right; left. exists x, a. repeat split; [by apply relink_copy; right|].
      by rewrite exec_link, Hb, Hp.
  - right; left. exists x, a. repeat split; [by apply relink_copy; left|].
    by rewrite exec_link, Hb.
Qed.

Lemma relink_length b a : length (relink b a) <= length a.
Proof.
  remember (length a) as n eqn:Hn. revert b a Hn.
  induction n as [n IH] using lt_wf_ind. intros b a ->.
  destruct (relink_cases b a) as [[-> ->]|[(x & a' & -> & -> & _)|(L & U & r & -> & _ & _ & ->)]].
  - done.
  - simpl. specialize (IH (length a') ltac:(simpl; lia) (x :: b) a' eq_refl). lia.
  - rewrite !length_app, link_text_length, link_repl_length.
    specialize (IH (length r) ltac:(rewrite length_app, link_text_length; lia)
                   (rev (link_text L U) ++ b) r eq_refl).
    lia.
Qed.

Lemma relink_length_eq b a :
  length (relink b a) = length a <-> search_from link_re b a = None.
Proof.
  revert b; induction a as [|x a IH]; intros b.
  - rewrite relink_nil. cbn [search_from]. rewrite exec_link.
    by destruct (lookbehind_ok b).
  - destruct (relink_cases b (x :: a)) as [[? _]|[(x' & a' & E & -> & He)|(L & U & r & E & Hb & Hp & ->)]].
    + done.
    + injection E as <- <-. cbn [search_from]. rewrite He. simpl. rewrite <- IH. lia.
    + cbn [search_from]. rewrite exec_link, Hb, Hp. split; [|done].
      rewrite E, !length_app, link_text_length, link_repl_length.
      pose proof (relink_length (rev (link_text L U) ++ b) r). lia.
Qed.

(** ** The section span and the reassembly *)

Lemma slice_split t s e :
  s <= e <= length t -> firstn s t ++ slice s e t ++ skipn e t = t.
Proof.
  intros H. unfold slice.
  replace (skipn e t) with (skipn (e - s) (skipn s t))
    by (rewrite skipn_skipn; f_equal; lia).
  by rewrite !firstn_skipn.
Qed.

Lemma section_span_bounds t s e :
  section_span t = Some (s, e) -> s <= e <= length t.
Proof.
  unfold section_span.
  destruct (search heading_re t) as [m|] eqn:Hm; [|done].
  apply search_bounds in Hm as Hb.
  destruct (search next_heading_re (skipn (m_end m) t)) as [m'|] eqn:Hm'.
  - apply search_bounds in Hm'. rewrite length_skipn in Hm'.
    intros [= <- <-]. lia.
  - intros [= <- <-]. lia.
Qed.

Lemma rewrite_span_length_parts t s e :
  s <= e <= length t ->
  length (rewrite_span t s e) =
  s + length (sub link_re link_repl (slice s e t)) + (length t - e).
Proof.
  intros H. unfold rewrite_span.
  rewrite !length_app, length_firstn, length_skipn. lia.
Qed.

(** C2. Framing: with [(s, e)] the section span of [t], the first [s]
    characters of the rewritten text are the first [s] characters of [t], its
    last [length t - e] characters are the characters of [t] from [e] on, and
    the two pieces do not overlap; only what lies between them can differ. *)
Theorem rewrite_frame (t : text) (s e : nat) :
  section_span t = Some (s, e) ->
  s <= e <= length t /\
  firstn s (rewrite_modules_section t) = firstn s t /\
  skipn (length (rewrite_modules_section t) - (length t - e)) (rewrite_modules_section t)
    = skipn e t /\
  s + (length t - e) <= length (rewrite_modules_section t).
Proof.
  intros Hspan. pose proof (section_span_bounds _ _ _ Hspan) as Hb.
  unfold rewrite_modules_section. rewrite Hspan.
  rewrite rewrite_span_length_parts by done. unfold rewrite_span.
  set (mid := sub link_re link_repl (slice s e t)).
  assert (length (firstn s t) = s) as Hl by (rewrite length_firstn; lia).
  repeat split; try lia.
  - rewrite firstn_app, Hl, Nat.sub_diag. simpl.
    rewrite app_nil_r. apply firstn_all2. lia.
  - replace (s + length mid + (length t - e) - (length t - e))
      with (length (firstn s t ++ mid)) by (rewrite length_app; lia).
    rewrite (app_assoc (firstn s t) mid), skipn_app, Nat.sub_diag.
    rewrite skipn_all. done.
Qed.

Lemma rewrite_frame_witness :
  section_span readme_modules = Some (18, 66) /\
  firstn 18 (rewrite_modules_section readme_modules) = firstn 18 readme_modules /\
  skipn (length (rewrite_modules_section readme_modules) - (length readme_modules - 66))
        (rewrite_modules_section readme_modules)
    = skipn 66 readme_modules.
Proof.
  split; [reflexivity|].
  destruct (rewrite_frame readme_modules 18 66) as (_ & Hpre & Hsuf & _).
  - reflexivity.
  - split; [exact Hpre|exact Hsuf].
Defined.

(** C10. The rewritten text is never longer than the text read, and it is
    exactly as long when no heading is found or no link the pattern accepts
    occurs in the section body, and only then. *)
Theorem rewrite_never_longer (t : text) :
  length (rewrite_modules_section t) <= length t /\
  (length (rewrite_modules_section t) = length t <->
   section_span t = None \/ ~ link_occurs (section_body t)).
Proof.
  unfold rewrite_modules_section, section_body.
  destruct (section_span t) as [[s e]|] eqn:Hspan.
  - pose proof (section_span_bounds _ _ _ Hspan) as Hb.
    rewrite rewrite_span_length_parts by done. unfold sub.
    pose proof (relink_length [] (slice s e t)) as Hle.
    pose proof (relink_length_eq [] (slice s e t)) as Heq.
    assert (length (slice s e t) = e - s) as Hs.
    { unfold slice. rewrite length_firstn, length_skipn. lia. }
    split; [lia|]. rewrite link_occurs_search. unfold search. split.
    + intros H. right. intros Hne. apply Hne, Heq. lia.
    + intros [|H]; [done|].
      destruct (search_from link_re [] (slice s e t)) eqn:Hsr; [by destruct H|].
      destruct Heq as [_ Heq]. specialize (Heq eq_refl). lia.
  - split; [lia|]. split; [by left|done].
Qed.

(** ** The two heading patterns *)

Lemma exec_Alt r1 r2 c : exec (Alt r1 r2) c = exec r1 c ++ exec r2 c.
Proof. done. Qed.

Lemma exec_Bol b a lab :
  exec Bol (Cursor b a lab) = if bol_ok b then [Cursor b a lab] else [].
Proof. destruct b as [|x b]; simpl; [done|]. by destruct (x =? LF)%N. Qed.

Lemma exec_Eol b a lab :
  exec Eol (Cursor b a lab) = if eol_ok a then [Cursor b a lab] else [].
Proof. destruct a as [|x a]; simpl; [done|]. by destruct (x =? LF)%N. Qed.

Lemma greedy_nonempty p b a lab : greedy p b a lab <> [].
Proof. destruct a; simpl; [done|]. by destruct (_ ++ _) eqn:E; [apply app_eq_nil in E as [_ ?]|]. Qed.

Lemma exec_Plus_nil p b a lab :
  exec (Plus p) (Cursor b a lab) = [] <->
  match a with x :: _ => p x = false | [] => True end.
Proof.
  destruct a as [|x a]; simpl; [done|]. destruct (p x); [|done].
  split; [|done]. intros H. by apply greedy_nonempty in H.
Qed.

Lemma exec_hash b a lab :
  exec (Str (str "#")) (Cursor b a lab) =
  match a with
  | h :: r => if (h =? HASH)%N then [Cursor (HASH :: b) r lab] else []
  | [] => []
  end.
Proof.
  change (str "#") with [HASH]. destruct a as [|h r]; [done|].
  cbn [exec ahead behind label strip_prefix rev app]. rewrite (N.eqb_sym HASH h).
  by destruct (h =? HASH)%N.
Qed.

Lemma exec_hash2 b a lab :
  exec (Str (str "##")) (Cursor b a lab) =
  match a with
  | h :: x :: r =>
      if (h =? HASH)%N && (x =? HASH)%N then [Cursor (HASH :: HASH :: b) r lab] else []
  | _ => []
  end.
Proof.
  change (str "##") with [HASH; HASH]. destruct a as [|h [|x r]].
  - done.
  - cbn [exec ahead behind label strip_prefix rev app]. by destruct (HASH =? h)%N.
  - cbn [exec ahead behind label strip_prefix rev app].
    rewrite (N.eqb_sym HASH h), (N.eqb_sym HASH x).
    by destruct (h =? HASH)%N, (x =? HASH)%N.
Qed.

Lemma isspace_not_hash x : py_isspace x = true -> (x =? HASH)%N = false.
Proof. destruct (N.eqb_spec x HASH) as [->|]; done. Qed.

(** The next-heading pattern matches at a cursor exactly when the cursor is
    at the first column of a line that begins with a heading marker. *)
Lemma exec_next_heading b a :
  exec next_heading_re (at_start b a) = [] <-> bol_ok b && starts_marker a = false.
Proof.
  unfold next_heading_re, at_start. rewrite exec_Seq, exec_Bol.
  destruct (bol_ok b); [|done]. cbn [flat_map andb]. rewrite app_nil_r.
  rewrite exec_Seq, exec_Alt, flat_map_app, exec_hash, exec_hash2.
  destruct a as [|h [|x r]]; cbn [starts_marker].
  - done.
  - destruct (h =? HASH)%N; cbn [flat_map app]; [|done].
    rewrite !app_nil_r. split; [done|]. intros _. by apply exec_Plus_nil.
  - destruct (h =? HASH)%N; cbn [flat_map andb app]; [|done].
    rewrite !app_nil_r.
    destruct (py_isspace x) eqn:Ex.
    + rewrite (isspace_not_hash _ Ex). cbn [flat_map orb]. split; [|done].
      rewrite app_nil_r. intros H. apply exec_Plus_nil in H. congruence.
    + cbn [orb]. rewrite (proj2 (exec_Plus_nil _ _ _ _)) by done. cbn [app].
      destruct (x =? HASH)%N; cbn [flat_map andb]; [|done].
      rewrite app_nil_r, exec_Plus_nil. destruct r as [|y r]; [done|].
      destruct (py_isspace y); done.
Qed.

(** A heading match stops at the end of a line. *)
Lemma exec_heading_eol c c' : In c' (exec heading_re c) -> eol_ok (ahead c') = true.
Proof.
  unfold heading_re.
  intros (c1 & _ & H)%exec_Seq_In. apply exec_Seq_In in H as (c2 & _ & H).
  apply exec_Seq_In in H as (c3 & _ & H). apply exec_Seq_In in H as (c4 & _ & H).
  apply exec_Seq_In in H as (c5 & _ & H). destruct c5 as [b5 a5 l5].
  rewrite exec_Eol in H. destruct (eol_ok a5) eqn:E; [|done].
  by destruct H as [<-|[]].
Qed.

Lemma eol_no_marker a : eol_ok a = true -> starts_marker a = false.
Proof.
  destruct a as [|h [|x r]]; try done. simpl.
  destruct (N.eqb_spec h LF) as [->|]; done.
Qed.

(** ** Where the section ends *)

Lemma skipn_app_length (pre rest : text) : skipn (length pre) (pre ++ rest) = rest.
Proof. by rewrite skipn_app, Nat.sub_diag, skipn_all. Qed.

Lemma line_start_app (pre p1 rest : text) :
  p1 <> [] -> line_start (pre ++ p1 ++ rest) (length pre + length p1) = bol_ok (rev p1).
Proof.
  intros Hp. destruct p1 as [|z q _] using rev_ind; [done|].
  rewrite rev_app_distr, length_app. simpl.
  replace (length pre + (length q + 1)) with (S (length (pre ++ q)))
    by (rewrite length_app; lia).
  cbn [line_start]. rewrite <- app_assoc, app_assoc.
  rewrite nth_error_app2, Nat.sub_diag by lia. done.
Qed.

Lemma heading_line_at_split (pre p1 p2 : text) :
  eol_ok (p1 ++ p2) = true ->
  heading_line_at (pre ++ p1 ++ p2) (length pre + length p1) =
  bol_ok (rev p1) && starts_marker p2.
Proof.
  intros He. unfold heading_line_at.
  replace (skipn (length pre + length p1) (pre ++ p1 ++ p2)) with p2.
  2: { rewrite app_assoc, <- length_app. by rewrite skipn_app_length. }
  destruct p1 as [|x p1].
  - simpl in *. rewrite (eol_no_marker _ He). by rewrite andb_false_r.
  - by rewrite line_start_app.
Qed.

(** The section body starts where the heading match ends, at an end of line. *)
Lemma heading_end_eol t m :
  search heading_re t = Some m ->
  m_end m <= length t /\ eol_ok (skipn (m_end m) t) = true.
Proof.
  intros Hs. pose proof (search_bounds _ _ _ Hs) as Hb. split; [lia|].
  apply search_Some in Hs as (pre & post & c' & rest & -> & He & -> & _).
  assert (In c' (exec heading_re (at_start (rev pre) post))) as Hin
      by (rewrite He; by left).
  pose proof (exec_heading_eol _ _ Hin) as Heol.
  apply exec_extends in Hin as (mm & A & B). simpl in *.
  rewrite B, A, <- rev_app_distr, length_rev, app_assoc.
  by rewrite skipn_app_length.
Qed.

(** The substitution strips the links, from left to right. *)
Lemma relink_links_stripped b a : links_stripped b a (relink b a).
Proof.
  remember (length a) as n eqn:Hn. revert b a Hn.
  induction n as [n IH] using lt_wf_ind. intros b a ->.
  destruct (relink_cases b a)
    as [[-> ->]|[(x & a' & -> & -> & He)|(L & U & r & -> & Hb & Hp & ->)]].
  - constructor.
  - apply stripped_char; [|by apply (IH (length a')); [simpl; lia|]].
    intros L U r (E & Hb & HL & HU & FL & FU).
    rewrite exec_link, Hb, E, link_parse_text in He by done. discriminate He.
  - apply link_parse_Some in Hp as (_ & HL & HU & FL & FU).
    apply (stripped_link b _ L U r); [done|].
    apply (IH (length r)); [|done]. rewrite length_app, link_text_length. lia.
Qed.

(** There is one way to strip the links: the relation fixes its result. *)
Lemma links_stripped_unique b a o o' :
  links_stripped b a o -> links_stripped b a o' -> o = o'.
Proof.
  intros H. revert o'. induction H as [b|b a L U r o Hat H IH|b x a o Hno H IH];
    intros o' H'.
  - inversion H' as [|b' a' L U r o2 (E & _) _|]; [done|].
    unfold link_text in E. discriminate E.
  - destruct Hat as (-> & Hb & HL & HU & FL & FU).
    pose proof (link_parse_text L U r HL HU FL FU) as P.
    inversion H' as [|b' a' L' U' r' o2 Hat' H2 Eb Ea Eo|b' x' a' o2 Hno' H2 Eb Ea Eo].
    + destruct Hat' as (E' & _ & HL' & HU' & FL' & FU').
      rewrite E', link_parse_text in P by done. injection P as -> -> ->.
      f_equal. by apply IH.
    + by destruct (Hno' L U r).
  - inversion H' as [|b' a' L' U' r' o2 Hat' H2|b' x' a' o2 Hno' H2].
    + by destruct (Hno _ _ _ Hat').
    + f_equal. by apply IH.
Qed.

(** C8. Section end: with the heading found and [(s, e)] the span, no line
    from [s] up to [e] begins with [#] + whitespace or [##] + whitespace, and
    [e] is either the first column of a line that does or the end of the
    text; when no later line begins that way, the body runs to the end of the
    text, and what is written after the heading is that body with its links,
    taken from left to right up to the end of the text, each reduced to its
    bracketed label. *)
Theorem section_end (t : text) (s e : nat) :
  section_span t = Some (s, e) ->
  s <= e <= length t /\
  (forall j, s <= j < e -> heading_line_at t j = false) /\
  (e < length t -> heading_line_at t e = true) /\
  ((forall j, s <= j -> heading_line_at t j = false) ->
   e = length t /\
   exists o, rewrite_modules_section t = firstn s t ++ o /\
             links_stripped [] (skipn s t) o).
Proof.
  intros Hspan. pose proof (section_span_bounds _ _ _ Hspan) as Hb.
  split; [done|]. unfold rewrite_modules_section. rewrite Hspan.
  unfold section_span in Hspan.
  destruct (search heading_re t) as [m|] eqn:Hm; [|done].
  apply heading_end_eol in Hm as [Hle Heol].
  set (pre := firstn (m_end m) t) in *.
  assert (length pre = m_end m) as Hpre by (unfold pre; rewrite length_firstn; lia).
  assert (t = pre ++ skipn (m_end m) t) as Ht by (unfold pre; by rewrite firstn_skipn).
  destruct (search next_heading_re (skipn (m_end m) t)) as [m'|] eqn:Hn.
  - injection Hspan as <- <-.
    apply search_Some in Hn as (p & q & c' & rest & Hpq & He & -> & Hmin).
    cbn [m_start] in *. rewrite Hpq in Ht, Heol.
    assert (heading_line_at t (m_end m + length p) = true) as Hat.
    { rewrite Ht at 1. rewrite <- Hpre, heading_line_at_split by done.
      apply not_false_iff_true. intros Hf.
      apply exec_next_heading in Hf. by rewrite Hf in He. }
    split; [|split; [done|]].
    + intros j Hj.
      assert (exists i, j = m_end m + i) as [i ->] by (exists (j - m_end m); lia).
      assert (p = firstn i p ++ skipn i p) as Hp by (by rewrite firstn_skipn).
      assert (length (firstn i p) = i) as Hi by (rewrite length_firstn; lia).
      assert (skipn i p <> []) as Hne.
      { intros H0. apply (f_equal (@length _)) in H0.
        rewrite length_skipn in H0. simpl in H0. lia. }
      specialize (Hmin _ _ Hp Hne).
      apply exec_next_heading in Hmin.
      replace (m_end m + i) with (length pre + length (firstn i p)) by lia.
      rewrite Ht, Hp at 1. rewrite <- !app_assoc, heading_line_at_split; [done|].
      by rewrite app_assoc, <- Hp.
    + intros Hno. specialize (Hno (m_end m + length p) ltac:(lia)). congruence.
  - injection Hspan as <- <-. split; [|split; [lia|intros _; split; [done|]]].
    + intros j Hj.
      assert (exists i, j = m_end m + i) as [i ->] by (exists (j - m_end m); lia).
      rewrite search_None in Hn.
      pose proof (firstn_skipn i (skipn (m_end m) t)) as Hp.
      assert (length (firstn i (skipn (m_end m) t)) = i) as Hi
          by (rewrite length_firstn, length_skipn; lia).
      specialize (Hn _ _ (eq_sym Hp)).
      apply exec_next_heading in Hn.
      replace (m_end m + i)
        with (length pre + length (firstn i (skipn (m_end m) t))) by lia.
      rewrite Ht at 1. rewrite <- Hp at 1. rewrite heading_line_at_split; [done|].
      by rewrite Hp.
    + exists (sub link_re link_repl (skipn (m_end m) t)).
      split; [|apply relink_links_stripped].
      unfold rewrite_span, slice.
      rewrite skipn_all, app_nil_r, (firstn_all2 (skipn (m_end m) t)); [done|].
      rewrite length_skipn. lia.
Qed.

Lemma section_end_witness :
  section_span readme_last_section = Some (10, 24) /\
  (forall j, 10 <= j -> heading_line_at readme_last_section j = false) /\
  rewrite_modules_section readme_last_section
    = str "## Modules" ++ LF :: str "[a] [c]" /\
  links_stripped [] (LF :: str "[a](b) [c](d)") (LF :: str "[a] [c]").
Proof.
  assert (forall j, 10 <= j -> heading_line_at readme_last_section j = false) as Hno.
  { intros j Hj. do 25 (destruct j as [|j]; [try lia; reflexivity|]).
    unfold heading_line_at. apply andb_false_r. }
  split; [reflexivity|]. split; [exact Hno|].
  destruct (section_end readme_last_section 10 24) as (_ & _ & _ & Heof).
  - reflexivity.
  - destruct (Heof Hno) as (_ & o & Ho & Hs). split; [reflexivity|].
    assert (o = LF :: str "[a] [c]") as <-; [|exact Hs].
    apply (app_inv_head (firstn 10 readme_last_section)). rewrite <- Ho. reflexivity.
Defined.

(** ** Finding the heading *)

Lemma lines_structure t :
  exists l0 ls,
    lines t = l0 :: ls /\
    (exists post, t = l0 ++ post /\ eol_ok post = true) /\
    (forall l, In l ls ->
               exists pre post, t = (pre ++ [LF]) ++ l ++ post /\ eol_ok post = true).
Proof.
  induction t as [|x t (l0 & ls & El & (post0 & E0 & P0) & Hls)]; simpl.
  - exists [], []. split; [done|]. split; [by exists []|]. intros l [].
  - destruct (N.eqb_spec x LF) as [->|Hx].
    + exists [], (lines t). split; [done|]. split.
      * exists (LF :: t). done.
      * rewrite El. intros l [<-|Hin].
        -- exists [], post0. by rewrite E0.
        -- destruct (Hls l Hin) as (pre & post & E & P).
           exists (LF :: pre), post. by rewrite E at 1.
    + rewrite El. exists (x :: l0), ls. split; [done|]. split.
      * exists post0. by rewrite E0 at 1.
      * intros l Hin. destruct (Hls l Hin) as (pre & post & E & P).
        exists (x :: pre), post. by rewrite E at 1.
Qed.

Lemma lines_split t l :
  In l (lines t) ->
  exists pre post, t = pre ++ l ++ post /\ bol_ok (rev pre) = true /\ eol_ok post = true.
Proof.
  destruct (lines_structure t) as (l0 & ls & -> & (post0 & E0 & P0) & Hls).
  intros [<-|Hin].
  - by exists [], post0.
  - destruct (Hls l Hin) as (pre & post & E & P).
    exists (pre ++ [LF]), post. by rewrite rev_app_distr.
Qed.

Lemma exec_Plus_In p b w a lab :
  w <> [] -> forallb p w = true ->
  In (Cursor (rev w ++ b) a lab) (exec (Plus p) (Cursor b (w ++ a) lab)).
Proof.
  destruct w as [|x w]; [done|]. intros _ [Hx Hw]%andb_prop. simpl. rewrite Hx.
  rewrite <- app_assoc. by apply greedy_In_run.
Qed.

Lemma heading_shape_split l :
  heading_shape l = true ->
  exists w1 w2, l = str "##" ++ w1 ++ str "Modules" ++ w2 /\ w1 <> [] /\
                forallb py_isspace w1 = true /\ forallb py_isspace w2 = true.
Proof.
  unfold heading_shape.
  destruct (strip_prefix (str "##") l) as [r|] eqn:E1; [|done].
  apply strip_prefix_Some in E1 as ->.
  pose proof (run_after_run py_isspace r) as Er.
  pose proof (run_forallb py_isspace r) as Fr.
  destruct (run py_isspace r) as [|x w1]; [done|].
  destruct (strip_prefix (str "Modules") (after_run py_isspace r)) as [w2|] eqn:E2; [|done].
  apply strip_prefix_Some in E2. rewrite E2 in Er. intros F2.
  exists (x :: w1), w2. by rewrite Er.
Qed.

(** A line of the heading's shape, standing at the first column, is matched
    by the heading pattern. *)
Lemma exec_heading_shape b l post :
  bol_ok b = true -> heading_shape l = true -> eol_ok post = true ->
  exec heading_re (at_start b (l ++ post)) <> [].
Proof.
  intros Hb (w1 & w2 & -> & Hne & F1 & F2)%heading_shape_split He.
  assert (In (Cursor (rev w2 ++ rev (str "Modules") ++ rev w1 ++ rev (str "##") ++ b)
                     post [])
             (exec heading_re (at_start b ((str "##" ++ w1 ++ str "Modules" ++ w2) ++ post))))
    as Hin; [|by destruct (exec _ _)].
  unfold heading_re, at_start. rewrite <- !app_assoc.
  apply exec_Seq_In. eexists. split; [rewrite exec_Bol, Hb; by left|].
  apply exec_Seq_In. eexists. split; [rewrite exec_Str_app; by left|].
  apply exec_Seq_In. eexists. split; [by apply exec_Plus_In|].
  apply exec_Seq_In. eexists. split; [rewrite exec_Str_app; by left|].
  apply exec_Seq_In. eexists. split; [by apply (greedy_In_run py_isspace _ w2)|].
  rewrite exec_Eol, He. by left.
Qed.

(** C3, as the code has it. A line that has, from its first column on, exactly
    two [#], one or more whitespace characters, the word [Modules] and then
    only whitespace, is located as the heading: the rewriter takes the
    rewriting path, not the unchanged-copy path. *)
Theorem heading_line_located (t l : text) :
  In l (lines t) -> heading_shape l = true ->
  exists s e, section_span t = Some (s, e).
Proof.
  intros (pre & post & -> & Hb & He)%lines_split Hl.
  pose proof (exec_heading_shape _ _ _ Hb Hl He) as Hex.
  unfold section_span.
  destruct (search heading_re (pre ++ l ++ post)) as [m|] eqn:Hs; [by eauto|].
  rewrite search_None in Hs. by specialize (Hs pre _ eq_refl).
Qed.

Lemma heading_line_located_witness :
  In (str "## Modules") (lines (str "# Title" ++ LF :: str "## Modules" ++ LF :: str "body"))
  /\ exists s e,
      section_span (str "# Title" ++ LF :: str "## Modules" ++ LF :: str "body")
      = Some (s, e).
Proof.
  split; [right; left; reflexivity|].
  apply (heading_line_located _ (str "## Modules")); [right; left; reflexivity|reflexivity].
Defined.

(** C3, as stated, fails: a heading line with leading whitespace is trimmed to
    the heading's shape, yet the pattern, anchored at the first column, does
    not find it. *)
Lemma trimmed_heading_not_located :
  ~ (forall t : text,
        (exists l, In l (lines t) /\ heading_shape (strip l) = true) ->
        exists s e, section_span t = Some (s, e)).
Proof.
  intros H. destruct (H (str " ## Modules")) as (s & e & Hse).
  - exists (str " ## Modules"). split; [left; reflexivity|reflexivity].
  - discriminate Hse.
Qed.

(** What a match of the heading pattern has passed over. *)
Lemma exec_Str_In s c c' :
  In c' (exec (Str s) c) -> ahead c = s ++ ahead c' /\ behind c' = rev s ++ behind c.
Proof.
  simpl. destruct (strip_prefix s (ahead c)) as [a'|] eqn:E; [|done].
  apply strip_prefix_Some in E. by intros [<-|[]].
Qed.

Lemma exec_Plus_In_inv p c c' :
  In c' (exec (Plus p) c) ->
  exists m, m <> [] /\ ahead c = m ++ ahead c' /\ behind c' = rev m ++ behind c /\
            forallb p m = true.
Proof.
  simpl. destruct (ahead c) as [|x a] eqn:Ea; [done|]. destruct (p x) eqn:Ex; [|done].
  intros (m & A & B & _ & F)%greedy_In. exists (x :: m). simpl.
  rewrite A, B, Ex, F, <- app_assoc. done.
Qed.

Lemma exec_heading_inv b a c' :
  In c' (exec heading_re (at_start b a)) ->
  bol_ok b = true /\
  exists w1 w2,
    a = (str "##" ++ w1 ++ str "Modules" ++ w2) ++ ahead c' /\
    behind c' = rev (str "##" ++ w1 ++ str "Modules" ++ w2) ++ b /\
    w1 <> [] /\ forallb py_isspace w1 = true /\ forallb py_isspace w2 = true /\
    eol_ok (ahead c') = true.
Proof.
  unfold heading_re, at_start.
  intros (c1 & H1 & H)%exec_Seq_In. apply exec_Seq_In in H as (c2 & H2 & H).
  apply exec_Seq_In in H as (c3 & H3 & H). apply exec_Seq_In in H as (c4 & H4 & H).
  apply exec_Seq_In in H as (c5 & H5 & H).
  rewrite exec_Bol in H1. destruct (bol_ok b) eqn:Hb; [|done].
  destruct H1 as [<-|[]].
  apply exec_Str_In in H2 as [A2 B2]. apply exec_Plus_In_inv in H3 as (w1 & Hw1 & A3 & B3 & F3).
  apply exec_Str_In in H4 as [A4 B4].
  cbn [exec] in H5. apply greedy_In in H5 as (w2 & A5 & B5 & _ & F5).
  destruct c5 as [b5 a5 l5]. rewrite exec_Eol in H.
  destruct (eol_ok a5) eqn:He; [|done]. destruct H as [<-|[]].
  cbn [ahead behind label] in *. split; [done|]. exists w1, w2.
  rewrite A2, A3, A4, A5, B5, B4, B3, B2. repeat split; try done.
  - by rewrite <- !app_assoc.
  - rewrite !rev_app_distr, <- !app_assoc. done.
Qed.

(** ** Idempotence: what a pattern cannot see *)

Lemma Forall2_flat_map {A B} (R : A -> A -> Prop) (R' : B -> B -> Prop)
      (f g : A -> list B) l1 l2 :
  Forall2 R l1 l2 -> (forall x y, R x y -> Forall2 R' (f x) (g y)) ->
  Forall2 R' (flat_map f l1) (flat_map g l2).
Proof.
  intros H Hfg. induction H as [|x y l1 l2 Hxy _ IH]; simpl; [constructor|].
  apply Forall2_app; auto.
Qed.

Lemma Forall2_map {A B} (R : A -> A -> Prop) (R' : B -> B -> Prop)
      (f g : A -> B) l1 l2 :
  Forall2 R l1 l2 -> (forall x y, R x y -> R' (f x) (g y)) ->
  Forall2 R' (List.map f l1) (List.map g l2).
Proof.
  intros H Hfg. induction H as [|x y l1 l2 Hxy _ IH]; simpl; constructor; auto.
Qed.

Lemma strip_prefix_barrier s z P X :
  forallb (fun x => negb (x =? z)%N) s = true ->
  strip_prefix s (P ++ z :: X) =
  match strip_prefix s P with
  | Some P' => Some (P' ++ z :: X)
  | None => None
  end.
Proof.
  revert P; induction s as [|x s IH]; intros P; simpl; [done|].
  intros [Hx Hs]%andb_prop. destruct P as [|y P]; simpl.
  - by destruct (x =? z)%N.
  - destruct (x =? y)%N; [by apply IH|done].
Qed.

Lemma greedy_barrier p z X Y b P lab :
  p z = false ->
  Forall2 (same_upto z X Y) (greedy p b (P ++ z :: X) lab) (greedy p b (P ++ z :: Y) lab).
Proof.
  intros Hz. revert b; induction P as [|y P IH]; intros b; simpl.
  - rewrite Hz. simpl. constructor; [|constructor]. repeat split. by exists [].
  - apply Forall2_app.
    + destruct (p y); [apply IH|constructor].
    + constructor; [|constructor]. repeat split. by exists (y :: P).
Qed.

(** A pattern that never consumes [z] stops at the same places, whatever
    follows the first [z] ahead. *)
Lemma exec_barrier r z X Y c1 c2 :
  avoids z r = true -> same_upto z X Y c1 c2 ->
  Forall2 (same_upto z X Y) (exec r c1) (exec r c2).
Proof.
  revert c1 c2. induction r as [s| | |x|r1 IH1 r2 IH2|r1 IH1 r2 IH2|p|p|r IH];
    intros [b1 a1 l1] [b2 a2 l2] Hav (Hb & Hl & P & HX & HY);
    simpl in Hb, Hl, HX, HY; subst b2 l2 a1 a2; simpl in Hav.
  - simpl. rewrite !strip_prefix_barrier by done.
    destruct (strip_prefix s P) as [P'|]; constructor; [|constructor].
    repeat split. by exists P'.
  - rewrite !exec_Bol. destruct (bol_ok b1); constructor; [|constructor].
    repeat split. by exists P.
  - rewrite !exec_Eol.
    replace (eol_ok (P ++ z :: Y)) with (eol_ok (P ++ z :: X)) by (by destruct P).
    destruct (eol_ok _); constructor; [|constructor]. repeat split. by exists P.
  - simpl. destruct b1 as [|y b1]; [|destruct (y =? x)%N]; constructor;
      try constructor; repeat split; by exists P.
  - apply andb_prop in Hav as [H1 H2]. rewrite !exec_Seq.
    eapply Forall2_flat_map; [apply IH1; [done|]|].
    + repeat split. by exists P.
    + intros c c' Hc. by apply IH2.
  - apply andb_prop in Hav as [H1 H2]. rewrite !exec_Alt.
    apply Forall2_app; [apply IH1|apply IH2]; try done; repeat split; by exists P.
  - apply negb_true_iff in Hav. simpl. by apply greedy_barrier.
  - apply negb_true_iff in Hav. destruct P as [|y P]; simpl.
    + rewrite Hav. constructor.
    + destruct (p y); [by apply greedy_barrier|constructor].
  - rewrite !exec_Group. eapply Forall2_map; [apply IH; [done|]|].
    + repeat split. by exists P.
    + intros c c' (Hb & Hl & Q & HX & HY). unfold captured. simpl.
      rewrite Hb. repeat split. by exists Q.
Qed.

Lemma exec_barrier_nil r z P X Y b lab :
  avoids z r = true ->
  exec r (Cursor b (P ++ z :: X) lab) = [] -> exec r (Cursor b (P ++ z :: Y) lab) = [].
Proof.
  intros Hav He.
  pose proof (exec_barrier r z X Y (Cursor b (P ++ z :: X) lab)
                (Cursor b (P ++ z :: Y) lab) Hav) as H.
  rewrite He in H. specialize (H ltac:(repeat split; by exists P)).
  by inversion H.
Qed.

Lemma exec_barrier_head r z P X Y b lab c1 l1 :
  avoids z r = true ->
  exec r (Cursor b (P ++ z :: X) lab) = c1 :: l1 ->
  exists c2 l2, exec r (Cursor b (P ++ z :: Y) lab) = c2 :: l2 /\
                behind c2 = behind c1 /\ label c2 = label c1.
Proof.
  intros Hav He.
  pose proof (exec_barrier r z X Y (Cursor b (P ++ z :: X) lab)
                (Cursor b (P ++ z :: Y) lab) Hav) as H.
  rewrite He in H. specialize (H ltac:(repeat split; by exists P)).
  inversion H as [|? c2 ? l2 (Hb & Hl & _) _]; subst. by exists c2, l2.
Qed.

(** ** Idempotence: the link substitution on its own output *)

Lemma relink_head b a : hd_error (relink b a) = hd_error a.
Proof.
  destruct (relink_cases b a)
    as [[-> ->]|[(x & a' & -> & -> & _)|(L & U & r & -> & _ & _ & ->)]]; done.
Qed.

Lemma relink_In b a x : In x (relink b a) -> In x a.
Proof.
  remember (length a) as n eqn:Hn. revert b a Hn.
  induction n as [n IH] using lt_wf_ind. intros b a ->.
  destruct (relink_cases b a)
    as [[-> ->]|[(y & a' & -> & -> & _)|(L & U & r & -> & _ & _ & ->)]].
  - done.
  - intros [->|H]; [by left|]. right.
    by apply (IH (length a') ltac:(simpl; lia) (y :: b) a' eq_refl).
  - rewrite !in_app_iff. intros [H|H].
    + left. unfold link_repl, link_text in *. simpl in *.
      rewrite in_app_iff in *. simpl in *. tauto.
    + right. apply (IH (length r) ltac:(rewrite length_app, link_text_length; lia)
                       _ r eq_refl H).
Qed.

(** The substitution changes nothing before the first [ [ ]. *)
Lemma relink_front b a :
  relink b a = a \/
  exists N X Y, a = N ++ LBRACK :: X /\ relink b a = N ++ LBRACK :: Y.
Proof.
  revert b; induction a as [|x a IH]; intros b.
  - left. apply relink_nil.
  - destruct (relink_cases b (x :: a))
      as [[? _]|[(y & a' & E & -> & _)|(L & U & r & E & _ & _ & ->)]].
    + done.
    + injection E as <- <-. destruct (IH (x :: b)) as [->|(N & X & Y & -> & ->)].
      * by left.
      * right. by exists (x :: N), X, Y.
    + right. rewrite E. exists [], (L ++ RBRACK :: LPAREN :: U ++ [RPAREN] ++ r),
        (L ++ [RBRACK] ++ relink (rev (link_text L U) ++ b) r).
      unfold link_text, link_repl. simpl. rewrite <- !app_assoc. simpl.
      by rewrite <- !app_assoc.
Qed.

Lemma agree_cons x ob b : agree (x :: ob) (x :: b).
Proof. by left. Qed.

Lemma agree_bol ob b : agree ob b -> bol_ok ob = bol_ok b.
Proof.
  intros [H|[H1 H2]].
  - destruct ob, b; simpl in *; congruence.
  - destruct ob, b; simpl in *; try done. by injection H1 as ->; injection H2 as ->.
Qed.

Lemma agree_link L U ob b :
  agree (rev (link_repl L) ++ ob) (rev (link_text L U) ++ b).
Proof.
  right. unfold link_repl, link_text. simpl.
  rewrite !rev_app_distr. simpl. rewrite !rev_app_distr. done.
Qed.

(** What lies behind the end of the rewritten text and of the original. *)
Lemma relink_agree b a ob :
  agree ob b -> agree (rev (relink b a) ++ ob) (rev a ++ b).
Proof.
  remember (length a) as n eqn:Hn. revert b ob a Hn.
  induction n as [n IH] using lt_wf_ind. intros b ob a -> Hag.
  destruct (relink_cases b a)
    as [[-> ->]|[(y & a' & -> & -> & _)|(L & U & r & -> & _ & _ & ->)]].
  - done.
  - simpl. rewrite <- !app_assoc. simpl.
    apply (IH (length a') ltac:(simpl; lia) (y :: b) (y :: ob) a' eq_refl).
    apply agree_cons.
  - rewrite !rev_app_distr, <- !app_assoc.
    apply (IH (length r) ltac:(rewrite length_app, link_text_length; lia) _ _ r eq_refl).
    apply agree_link.
Qed.

Lemma after_run_nil p a : after_run p a = [] <-> forallb p a = true.
Proof.
  induction a as [|x a IH]; simpl; [done|]. destruct (p x); simpl; [done|].
  split; done.
Qed.

Lemma url_ok_iff y :
  url_ok y = true <->
  (exists u y', y = u :: y' /\ u <> RPAREN) /\ In RPAREN y.
Proof.
  unfold url_ok. split.
  - pose proof (after_run_nil not_rparen y) as Hn.
    pose proof (after_run_head not_rparen y) as Hh.
    pose proof (run_after_run not_rparen y) as Hr.
    destruct y as [|u y']; [done|]. simpl in *.
    destruct (not_rparen u) eqn:Eu; [|done].
    destruct (after_run not_rparen y') as [|z r]; [done|]. intros _.
    specialize (Hh _ _ eq_refl). apply not_rparen_false in Hh as ->. split.
    + exists u, y'. split; [done|]. intros ->. done.
    + right. injection Hr as Hr. rewrite <- Hr. apply in_app_iff. right. by left.
  - intros [(u & y' & -> & Hu) Hin]. simpl.
    assert (not_rparen u = true) as ->.
    { unfold not_rparen. by destruct (N.eqb_spec u RPAREN). }
    destruct Hin as [->|Hin]; [done|].
    destruct (after_run not_rparen y') as [|z r] eqn:E; [|done].
    apply after_run_nil in E. rewrite forallb_forall in E.
    by specialize (E _ Hin).
Qed.

Lemma url_ok_relink b a : url_ok (relink b a) = true -> url_ok a = true.
Proof.
  rewrite !url_ok_iff. intros [(u & y' & E & Hu) Hin]. split.
  - pose proof (relink_head b a) as Hh. rewrite E in Hh.
    destruct a as [|u' a']; [done|]. injection Hh as <-. by exists u, a'.
  - by apply relink_In in Hin.
Qed.

Lemma link_parse_tail x a :
  link_parse (x :: a) = None <-> (x =? LBRACK)%N && tail_ok a = false.
Proof.
  unfold link_parse, tail_ok, bracket_url, url_ok.
  destruct (x =? LBRACK)%N; [|done]. simpl.
  pose proof (after_run_head not_rbrack a) as Hh.
  destruct (run not_rbrack a) as [|l0 L]; [done|].
  destruct (after_run not_rbrack a) as [|z [|y a2]]; [done|done|].
  specialize (Hh _ _ eq_refl). apply not_rbrack_false in Hh as ->.
  rewrite N.eqb_refl. simpl. destruct (y =? LPAREN)%N; [|done]. simpl.
  destruct (run not_rparen a2); [done|].
  destruct (after_run not_rparen a2); done.
Qed.

Lemma relink_copy_other b x a :
  x <> LBRACK -> relink b (x :: a) = x :: relink (x :: b) a.
Proof.
  intros Hx. apply relink_copy. right. apply link_parse_tail.
  by destruct (N.eqb_spec x LBRACK).
Qed.

Lemma bracket_url_relink b a : bracket_url (relink b a) = true -> bracket_url a = true.
Proof.
  unfold bracket_url.
  pose proof (relink_head b a) as Hh.
  destruct (relink b a) as [|z [|y R]] eqn:E; [done|done|].
  intros [[Hz Hy]%andb_prop Hu]%andb_prop.
  apply N.eqb_eq in Hz as ->. apply N.eqb_eq in Hy as ->.
  destruct a as [|z a1]; [done|]. injection Hh as <-.
  rewrite relink_copy_other in E by done. injection E as E.
  pose proof (relink_head (RBRACK :: b) a1) as Hh. rewrite E in Hh.
  destruct a1 as [|y a2]; [done|]. injection Hh as <-.
  rewrite relink_copy_other in E by done. injection E as E.
  rewrite <- E in Hu. apply url_ok_relink in Hu. by rewrite Hu.
Qed.

Lemma tail_ok_cons x R :
  tail_ok (x :: R) = not_rbrack x && (tail_ok R || bracket_url R).
Proof.
  unfold tail_ok. simpl. destruct (not_rbrack x) eqn:Ex; [|done]. simpl.
  pose proof (run_forallb not_rbrack R) as Hf.
  pose proof (run_after_run not_rbrack R) as Hr.
  destruct (run not_rbrack R) as [|l0 L]; simpl in *.
  - by rewrite Hr.
  - apply andb_prop in Hf as [Hl0 _].
    assert (bracket_url R = false) as ->; [|by rewrite orb_false_r].
    rewrite <- Hr. unfold bracket_url. simpl.
    unfold not_rbrack in Hl0. apply negb_true_iff in Hl0. rewrite Hl0.
    by destruct (L ++ after_run not_rbrack R).
Qed.

Lemma link_text_app L U r :
  link_text L U ++ r = LBRACK :: L ++ RBRACK :: LPAREN :: U ++ RPAREN :: r.
Proof.
  unfold link_text. cbn [app]. rewrite <- app_assoc. cbn [app].
  by rewrite <- app_assoc.
Qed.

Lemma tail_ok_link L U r : L <> [] -> U <> [] ->
  forallb not_rbrack L = true -> forallb not_rparen U = true ->
  tail_ok (L ++ RBRACK :: LPAREN :: U ++ RPAREN :: r) = true.
Proof.
  intros HL HU FL FU.
  pose proof (link_parse_text L U r HL HU FL FU) as Hp.
  rewrite link_text_app in Hp.
  destruct (tail_ok _) eqn:E; [done|].
  assert (link_parse (LBRACK :: L ++ RBRACK :: LPAREN :: U ++ RPAREN :: r) = None) as Hn.
  { apply link_parse_tail. by rewrite E, andb_false_r. }
  congruence.
Qed.

(** A text that does not continue a [ [ ] into a link does not do so after
    the substitution either. *)
Lemma tail_ok_relink b a : tail_ok (relink b a) = true -> tail_ok a = true.
Proof.
  revert b; induction a as [|x a IH]; intros b.
  - by rewrite relink_nil.
  - destruct (relink_cases b (x :: a))
      as [[? _]|[(y & a' & E & -> & _)|(L & U & r & E & _ & Hp & _)]].
    + done.
    + injection E as <- <-. rewrite !tail_ok_cons.
      intros [-> [H|H]%orb_prop]%andb_prop; simpl.
      * by rewrite (IH _ H).
      * by rewrite (bracket_url_relink _ _ H), orb_true_r.
    + intros _. apply link_parse_Some in Hp as (_ & HL & HU & FL & FU).
      rewrite E, link_text_app. by apply (tail_ok_link (LBRACK :: L) U r).
Qed.

Lemma link_parse_relink b x a :
  link_parse (x :: a) = None -> link_parse (x :: relink b a) = None.
Proof.
  rewrite !link_parse_tail. destruct (x =? LBRACK)%N; [|done]. simpl.
  intros H. destruct (tail_ok (relink b a)) eqn:E; [|done].
  apply tail_ok_relink in E. congruence.
Qed.

Lemma tail_ok_stripped L R :
  forallb not_rbrack L = true -> hd_error R <> Some LPAREN ->
  tail_ok (L ++ RBRACK :: R) = false.
Proof.
  intros FL HR. unfold tail_ok. rewrite run_app, after_run_app by done.
  cbn [run after_run]. change (not_rbrack RBRACK) with false. cbn iota.
  rewrite app_nil_r. destruct L; [done|]. unfold bracket_url.
  destruct R as [|y R]; [done|]. destruct (N.eqb_spec y LPAREN) as [->|]; [done|].
  by rewrite andb_false_r.
Qed.

(** No link starts inside a stripped link [[label]], unless a [(] follows. *)
Lemma relink_stripped L ob R :
  forallb not_rbrack L = true -> hd_error R <> Some LPAREN ->
  relink ob (L ++ RBRACK :: R) = L ++ RBRACK :: relink (RBRACK :: rev L ++ ob) R.
Proof.
  revert ob; induction L as [|y L IH]; intros ob FL HR; cbn [app rev].
  - by apply relink_copy_other.
  - cbn [forallb] in FL. apply andb_prop in FL as [Hy FL]. rewrite relink_copy.
    + rewrite IH by done. by rewrite <- app_assoc.
    + right. apply link_parse_tail. by rewrite tail_ok_stripped, andb_false_r.
Qed.

Lemma adjacent_cons x y u t : adjacent x y (u :: t) = false -> adjacent x y t = false.
Proof. destruct t as [|v t]; [done|]. simpl. by intros [_ ?]%orb_false_elim. Qed.

Lemma adjacent_app_r x y u v : adjacent x y (u ++ v) = false -> adjacent x y v = false.
Proof. induction u as [|z u IH]; [done|]. intros H. by apply IH, (adjacent_cons x y z). Qed.

Lemma adjacent_head x y t : adjacent x y (x :: t) = false -> hd_error t <> Some y.
Proof.
  destruct t as [|v t]; [done|]. simpl. rewrite N.eqb_refl. simpl.
  intros [H _]%orb_false_elim [= ->]. by rewrite N.eqb_refl in H.
Qed.

Lemma adjacent_after_link L U r :
  adjacent RPAREN LPAREN (link_text L U ++ r) = false ->
  adjacent RPAREN LPAREN r = false /\ hd_error r <> Some LPAREN.
Proof.
  rewrite link_text_app. intros H.
  replace (LBRACK :: L ++ RBRACK :: LPAREN :: U ++ RPAREN :: r)
    with ((LBRACK :: L ++ RBRACK :: LPAREN :: U) ++ RPAREN :: r) in H.
  2: { simpl. by rewrite <- !app_assoc. }
  apply adjacent_app_r in H. split.
  - by apply adjacent_cons in H.
  - by apply adjacent_head in H.
Qed.

Lemma link_repl_app L R : link_repl L ++ R = (LBRACK :: L) ++ RBRACK :: R.
Proof. unfold link_repl. cbn [app]. by rewrite <- app_assoc. Qed.

(** The substitution leaves its own output alone, as long as no [ ) ] of the
    original is immediately followed by a [ ( ]. *)
Lemma relink_idem b a ob :
  lookbehind_ok ob = lookbehind_ok b ->
  adjacent RPAREN LPAREN a = false ->
  relink ob (relink b a) = relink b a.
Proof.
  remember (length a) as n eqn:Hn. revert b ob a Hn.
  induction n as [n IH] using lt_wf_ind. intros b ob a -> Hlb Hadj.
  destruct (relink_cases b a)
    as [[-> ->]|[(x & a' & -> & -> & He)|(L & U & r & -> & _ & Hp & ->)]].
  - apply relink_nil.
  - rewrite relink_copy.
    + f_equal. apply (IH (length a') ltac:(simpl; lia) (x :: b) (x :: ob) a' eq_refl).
      * done.
      * by apply adjacent_cons in Hadj.
    + rewrite exec_link in He. rewrite Hlb.
      destruct (lookbehind_ok b); [|by left]. right.
      apply link_parse_relink. by destruct (link_parse (x :: a')) as [[[? ?] ?]|].
  - apply link_parse_Some in Hp as (_ & HL & HU & FL & FU).
    apply adjacent_after_link in Hadj as [Hadj Hhd].
    rewrite link_repl_app, relink_stripped.
    + do 2 f_equal.
      apply (IH (length r) ltac:(rewrite length_app, link_text_length; lia) _ _ r eq_refl).
      * unfold link_text. simpl. rewrite !rev_app_distr. simpl.
        by rewrite !rev_app_distr.
      * done.
    + done.
    + by rewrite relink_head.
Qed.

(** ** Idempotence: the section keeps its bounds *)

Lemma starts_marker_barrier z P X Y :
  (z =? HASH)%N = false -> py_isspace z = false ->
  starts_marker (P ++ z :: X) = starts_marker (P ++ z :: Y).
Proof.
  intros Hz Hs. destruct P as [|h [|x [|y P]]]; cbn [app starts_marker].
  - rewrite Hz. by destruct X, Y.
  - by rewrite Hz, Hs.
  - by rewrite Hs.
  - done.
Qed.

Lemma starts_marker_relink x b a after :
  starts_marker (x :: relink b a ++ after) = starts_marker (x :: a ++ after).
Proof.
  destruct (relink_front b a) as [->|(N & X & Y & -> & ->)]; [done|].
  rewrite <- !app_assoc.
  apply (starts_marker_barrier LBRACK (x :: N) (Y ++ after) (X ++ after)); done.
Qed.

Lemma bol_ok_app q ob b : agree ob b -> bol_ok (rev q ++ ob) = bol_ok (rev q ++ b).
Proof. intros H. destruct (rev q); [by apply agree_bol|done]. Qed.

(** If no line inside the original section begins with a heading marker, none
    inside the rewritten section does. *)
Lemma relink_marker b a ob after :
  agree ob b ->
  (forall p1 p2, a = p1 ++ p2 -> p2 <> [] ->
                 bol_ok (rev p1 ++ b) && starts_marker (p2 ++ after) = false) ->
  (forall q1 q2, relink b a = q1 ++ q2 -> q2 <> [] ->
                 bol_ok (rev q1 ++ ob) && starts_marker (q2 ++ after) = false).
Proof.
  remember (length a) as n eqn:Hn. revert b ob a Hn.
  induction n as [n IH] using lt_wf_ind. intros b ob a -> Hag H q1 q2.
  destruct (relink_cases b a)
    as [[-> ->]|[(x & a' & -> & -> & _)|(L & U & r & -> & _ & _ & ->)]].
  - intros E Hq. symmetry in E. by apply app_eq_nil in E as [_ ?].
  - destruct q1 as [|y q1]; cbn [app rev].
    + intros <- _. specialize (H [] (x :: a') eq_refl ltac:(done)).
      cbn [app rev] in H |- *. by rewrite (agree_bol _ _ Hag), starts_marker_relink.
    + intros E Hq. injection E as <- E. rewrite <- app_assoc.
      apply (IH (length a') ltac:(simpl; lia) (x :: b) (x :: ob) a' eq_refl);
        [apply agree_cons| |done|done].
      intros p1 p2 -> Hp. specialize (H (x :: p1) p2 eq_refl Hp).
      cbn [rev] in H. by rewrite <- app_assoc in H.
  - intros E Hq.
    assert (forall l, q1 = link_repl L ++ l ->
                      relink (rev (link_text L U) ++ b) r = l ++ q2 ->
                      bol_ok (rev q1 ++ ob) && starts_marker (q2 ++ after) = false)
      as Hrest.
    { intros l -> El. rewrite rev_app_distr, <- app_assoc.
      apply (IH (length r) ltac:(rewrite length_app, link_text_length; lia)
                (rev (link_text L U) ++ b) (rev (link_repl L) ++ ob) r eq_refl);
        [apply agree_link| |done|done].
      intros p1 p2 -> Hp. specialize (H (link_text L U ++ p1) p2).
      rewrite rev_app_distr, <- !app_assoc in H. by apply H. }
    apply app_eq_app in E as [l [[E1 E2]|[E1 E2]]]; [|by apply (Hrest l)].
    destruct l as [|z l _] using rev_ind.
    { rewrite app_nil_r in E1. apply (Hrest []); [by rewrite app_nil_r|by rewrite E2]. }
    change (link_repl L) with ((LBRACK :: L) ++ [RBRACK]) in E1.
    rewrite app_assoc in E1. apply app_inj_tail in E1 as [E1 <-].
    specialize (H q1 (l ++ RBRACK :: LPAREN :: U ++ RPAREN :: r)).
    rewrite link_text_app, app_assoc, <- E1 in H.
    specialize (H eq_refl ltac:(by destruct l)).
    rewrite (bol_ok_app _ _ _ Hag), E2, <- !app_assoc.
    rewrite <- app_assoc in H. cbn [app] in H |- *.
    by rewrite (starts_marker_barrier RBRACK l _
                  ((LPAREN :: U ++ RPAREN :: r) ++ after)).
Qed.

Lemma heading_search_stable before T T' m :
  search heading_re (before ++ T) = Some m -> m_end m = length before ->
  T' = T \/ (exists N X Y, T = N ++ LBRACK :: X /\ T' = N ++ LBRACK :: Y) ->
  exists m', search heading_re (before ++ T') = Some m' /\ m_end m' = length before.
Proof.
  intros Hs Hend [->|(N & X & Y & -> & ->)]; [by exists m|].
  apply search_Some in Hs as (pre & post & c' & rest & Ht & He & -> & Hmin).
  assert (In c' (exec heading_re (at_start (rev pre) post))) as Hin
      by (rewrite He; by left).
  apply exec_extends in Hin as (mm & A & B). simpl in A, B, Hend.
  assert (before ++ (N ++ LBRACK :: X) = (pre ++ mm) ++ ahead c') as Ht'
      by (by rewrite Ht, A, app_assoc).
  apply app_inj_1 in Ht' as [Hbefore HT].
  2: { rewrite <- Hend, B, !length_app, !length_rev. lia. }
  subst before. rewrite A, <- HT, app_assoc in He.
  apply (exec_barrier_head _ _ _ _ Y) in He as (c2 & l2 & He2 & Hb2 & _); [|done].
  exists (Match (length pre) (length (behind c2)) (label c2)). split.
  - rewrite <- !app_assoc, (app_assoc mm N).
    apply (search_found heading_re pre _ c2 l2 He2).
    intros p1 p2 -> Hp. specialize (Hmin p1 p2 eq_refl Hp).
    rewrite A, <- HT in Hmin. unfold at_start in *.
    rewrite !app_assoc in Hmin |- *. by apply (exec_barrier_nil _ _ _ X Y).
  - simpl. by rewrite Hb2.
Qed.

Lemma rewrite_span_app before sec after :
  rewrite_span (before ++ sec ++ after) (length before) (length before + length sec) =
  before ++ sub link_re link_repl sec ++ after.
Proof.
  unfold rewrite_span, slice.
  rewrite firstn_app, firstn_all, Nat.sub_diag, firstn_O, app_nil_r.
  rewrite (skipn_app_length before (sec ++ after)).
  replace (length before + length sec - length before) with (length sec) by lia.
  rewrite firstn_app, firstn_all, Nat.sub_diag, firstn_O, app_nil_r.
  rewrite (app_assoc before sec after), <- length_app. by rewrite skipn_app_length.
Qed.

(** The rewritten text has its heading and its section where the original
    has them. *)
Lemma section_span_stable before sec after :
  section_span (before ++ sec ++ after) =
    Some (length before, length before + length sec) ->
  section_span (before ++ sub link_re link_repl sec ++ after) =
    Some (length before, length before + length (sub link_re link_repl sec)).
Proof.
  unfold section_span, sub.
  destruct (search heading_re (before ++ sec ++ after)) as [m|] eqn:Hm; [|done].
  intros Hspan.
  assert (m_end m = length before) as Hend by (by injection Hspan).
  destruct (heading_search_stable before (sec ++ after) (relink [] sec ++ after) m Hm Hend)
    as (m' & -> & Hend').
  { destruct (relink_front [] sec) as [->|(N & X & Y & -> & ->)]; [by left|].
    right. exists N, (X ++ after), (Y ++ after). by rewrite <- !app_assoc. }
  rewrite Hend in Hspan. rewrite Hend', !skipn_app_length in *.
  assert (forall q1 q2,
             (forall p1 p2, sec = p1 ++ p2 -> p2 <> [] ->
                            exec next_heading_re (at_start (rev p1) (p2 ++ after)) = []) ->
             relink [] sec = q1 ++ q2 -> q2 <> [] ->
             exec next_heading_re (at_start (rev q1) (q2 ++ after)) = []) as Hsplits.
  { intros q1 q2 Hmin E Hq. apply exec_next_heading.
    pose proof (relink_marker [] sec [] after ltac:(by left)) as Hrm.
    rewrite <- (app_nil_r (rev q1)). apply Hrm; try done.
    intros p1 p2 E' Hp. rewrite app_nil_r. apply exec_next_heading. by apply Hmin. }
  destruct (search next_heading_re (sec ++ after)) as [m1|] eqn:Hn.
  - assert (m_start m1 = length sec) as Hst by (injection Hspan; lia).
    apply search_Some in Hn as (pre & post & c' & rest & Ht & He & -> & Hmin).
    cbn [m_start] in Hst. apply app_inj_1 in Ht as [<- <-]; [|done].
    destruct (exec next_heading_re (at_start (rev (relink [] sec)) after))
      as [|c2 l2] eqn:He2.
    { apply exec_next_heading in He2.
      pose proof (relink_agree [] sec [] ltac:(by left)) as Hag.
      rewrite !app_nil_r in Hag. rewrite (agree_bol _ _ Hag) in He2.
      apply exec_next_heading in He2. by rewrite He2 in He. }
    rewrite (search_found next_heading_re _ _ c2 l2 He2); [done|].
    intros q1 q2 E Hq. by apply Hsplits.
  - assert (after = []) as ->.
    { injection Hspan as Hspan. rewrite !length_app in Hspan.
      destruct after; [done|]. simpl in Hspan. lia. }
    rewrite search_None in Hn.
    assert (search next_heading_re (relink [] sec ++ []) = None) as ->.
    { apply search_None. intros q1 q2 E. rewrite app_nil_r in E.
      destruct q2 as [|y q2].
      - apply exec_next_heading. by rewrite andb_false_r.
      - rewrite <- (app_nil_r (y :: q2)). apply Hsplits; try done.
        intros p1 p2 -> _. apply Hn. by rewrite <- app_assoc. }
    rewrite !length_app. simpl. do 2 f_equal. lia.
Qed.

(** C1, as the code has it. Rewriting the rewritten text changes nothing,
    provided no [ ) ] is immediately followed by a [ ( ] in the section body of
    the text read. *)
Theorem rewrite_idempotent_clean (t : text) :
  adjacent RPAREN LPAREN (section_body t) = false ->
  rewrite_modules_section (rewrite_modules_section t) = rewrite_modules_section t.
Proof.
  unfold section_body. unfold rewrite_modules_section at 2 3.
  destruct (section_span t) as [[s e]|] eqn:Hspan.
  - intros Hclean. pose proof (section_span_bounds _ _ _ Hspan) as Hb.
    pose proof (slice_split t s e Hb) as Ht.
    set (before := firstn s t) in *. set (sec := slice s e t) in *.
    set (after := skipn e t) in *.
    assert (length before = s) as Hlb by (unfold before; rewrite length_firstn; lia).
    assert (length sec = e - s) as Hls.
    { unfold sec, slice. rewrite length_firstn, length_skipn. lia. }
    unfold rewrite_span. fold before sec after.
    rewrite <- Ht in Hspan.
    replace s with (length before) in Hspan by done.
    replace e with (length before + length sec) in Hspan by lia.
    apply section_span_stable in Hspan.
    unfold rewrite_modules_section. rewrite Hspan, rewrite_span_app.
    unfold sub. by rewrite relink_idem.
  - intros _. unfold rewrite_modules_section. by rewrite Hspan.
Qed.

Lemma rewrite_idempotent_clean_witness :
  adjacent RPAREN LPAREN
           (section_body (str "## Modules" ++ LF :: str "- [core](./core.md) (x)")) = false
  /\ rewrite_modules_section
       (rewrite_modules_section (str "## Modules" ++ LF :: str "- [core](./core.md) (x)"))
     = rewrite_modules_section (str "## Modules" ++ LF :: str "- [core](./core.md) (x)").
Proof.
  split; [reflexivity|].
  apply (rewrite_idempotent_clean (str "## Modules" ++ LF :: str "- [core](./core.md) (x)")).
  reflexivity.
Defined.

(** C1, as stated, fails: the URL part stripped from a link can uncover a
    second parenthesised part, which the next pass strips in turn. *)
Lemma rewrite_not_idempotent :
  ~ (forall t : text,
        rewrite_modules_section (rewrite_modules_section t) = rewrite_modules_section t).
Proof.
  intros H. specialize (H (str "## Modules" ++ LF :: str "[a](b)(c)")).
  vm_compute in H. discriminate H.
Qed.

(** ** Image links *)

(** C9 at its failing input: an image link used as the label of a link (a
    linked badge) loses its URL part, and the outer link keeps its own. *)
Theorem image_inside_label_rewritten :
  rewrite_modules_section (str "## Modules" ++ LF :: str "[![alt](img.png)](http://x)")
  = str "## Modules" ++ LF :: str "[![alt]](http://x)".
Proof. vm_compute. reflexivity. Qed.

(** The case of the specification's example: the image link stays, the link
    next to it on the same line loses its URL part. *)
Lemma image_beside_link_kept :
  rewrite_modules_section (str "## Modules" ++ LF :: str "![alt](img.png) [text](http://x)")
  = str "## Modules" ++ LF :: str "![alt](img.png) [text]".
Proof. vm_compute. reflexivity. Qed.
(** ** The root locator *)

Lemma join_inj p q x y : join p x = join q y -> p = q /\ x = y.
Proof. destruct p, q. unfold join. simpl. by intros [= -> -> ->]. Qed.

Section RootLocator.

Variable resolve : path -> path.
Variable fs : gmap path node.

Lemma parent_fixed p : parent p = p <-> parts p = [].
Proof.
  destruct p as [a ps]. unfold parent. simpl. split.
  - intros [= H]. destruct ps as [|x ps]; [done|]. simpl in H.
    apply (f_equal (@length _)) in H. simpl in H. lia.
  - by intros ->.
Qed.

Lemma iter_parent n a ps : Nat.iter n parent (Path a ps) = Path a (skipn n ps).
Proof.
  revert ps; induction n as [|n IH]; intros ps; [done|].
  rewrite Nat.iter_succ_r. change (parent (Path a ps)) with (Path a (tail ps)).
  rewrite IH. destruct ps; [by rewrite !skipn_nil|done].
Qed.

(** The loop, seen from its result and from its [exists()] calls. *)
Lemma walk_up_unfold start a ps :
  walk_up fs start a ps =
  (if is_root_marker fs (Path a ps) then Path a ps
   else match ps with
        | [] => start
        | _ :: ps' => fst (walk_up fs start a ps')
        end,
   candidate_probes fs (Path a ps) ++
   if is_root_marker fs (Path a ps) then []
   else match ps with
        | [] => []
        | _ :: ps' => snd (walk_up fs start a ps')
        end).
Proof.
  unfold is_root_marker, candidate_probes.
  destruct ps as [|x ps]; cbn [walk_up];
    destruct (exists_ fs (join _ ".git")); cbn [orb andb]; try done;
    destruct (exists_ fs (join _ "README.md")); cbn [orb andb]; try done;
    try destruct (exists_ fs (join _ "src")); cbn [orb andb]; try done;
    by destruct (walk_up fs start a ps).
Qed.

Lemma walk_up_marker start a ps :
  is_root_marker fs (Path a ps) = true -> fst (walk_up fs start a ps) = Path a ps.
Proof. intros H. by rewrite walk_up_unfold, H. Qed.

Lemma walk_up_step start a x ps :
  is_root_marker fs (Path a (x :: ps)) = false ->
  fst (walk_up fs start a (x :: ps)) = fst (walk_up fs start a ps).
Proof. intros H. by rewrite walk_up_unfold, H. Qed.

Lemma walk_up_top start a :
  is_root_marker fs (Path a []) = false -> fst (walk_up fs start a []) = start.
Proof. intros H. by rewrite walk_up_unfold, H. Qed.

Lemma walk_up_fallback start a ps :
  (forall n, is_root_marker fs (Nat.iter n parent (Path a ps)) = false) ->
  fst (walk_up fs start a ps) = start.
Proof.
  induction ps as [|x ps IH]; intros H.
  - apply walk_up_top, (H 0).
  - rewrite walk_up_step by apply (H 0). apply IH.
    intros n. specialize (H (S n)). rewrite Nat.iter_succ_r in H. apply H.
Qed.

(** The first call of a search is the [.git] test of the directory it
    starts in. *)
Lemma walk_up_first start a ps :
  snd (walk_up fs start a ps) !! 0 = Some (join (Path a ps) ".git").
Proof. by rewrite walk_up_unfold. Qed.

(** In the calls of a search, a [README.md] test comes right after the
    failed [.git] test of the same directory, and a [src] test right after
    the successful [README.md] test of the same directory. *)
Lemma walk_up_order start a ps i q :
  (snd (walk_up fs start a ps) !! (S i) = Some (join q "README.md") ->
   snd (walk_up fs start a ps) !! i = Some (join q ".git") /\
   exists_ fs (join q ".git") = false) /\
  (snd (walk_up fs start a ps) !! (S i) = Some (join q "src") ->
   snd (walk_up fs start a ps) !! i = Some (join q "README.md") /\
   exists_ fs (join q "README.md") = true).
Proof.
  revert i. induction ps as [|x ps IH]; intros i.
  all: try pose proof (walk_up_first start a ps) as Hfirst.
  all: rewrite walk_up_unfold; unfold is_root_marker, candidate_probes; cbn [snd].
  all: destruct (exists_ fs (join (Path a _) ".git")) eqn:Eg; cbn [orb andb app].
  all: try destruct (exists_ fs (join (Path a _) "README.md")) eqn:Er;
    cbn [orb andb app].
  all: try destruct (exists_ fs (join (Path a _) "src")) eqn:Es; cbn [orb andb app].
  all: destruct i as [|[|[|i]]]; cbn [lookup list_lookup].
  all: first
    [ exact (IH _)
    | split; intros H; try (unfold lookup in H, Hfirst; rewrite Hfirst in H);
      try discriminate H;
      apply (inj Some), join_inj in H as [H1 H2];
      try discriminate H2; subst q; done ].
Qed.

(** C4. Root fallback: when neither the resolved starting directory nor any
    of its ancestors (its [n]-fold parents, up to the filesystem root) holds
    a [.git] entry or both [README.md] and [src], [find_project_root]
    returns the path it was given, as given, not the root it walked up to. *)
Theorem find_project_root_fallback (start : path) :
  (forall n, is_root_marker fs (Nat.iter n parent (resolve start)) = false) ->
  find_project_root resolve fs start = start.
Proof.
  intros H. unfold find_project_root, find_project_root_traced. apply walk_up_fallback.
  by destruct (resolve start).
Qed.

(** C5. Root markers: a directory that holds [.git], or both [README.md] and
    [src], or all three, is returned when the search starts there (as the
    resolved path of that directory).  The [exists()] calls made on it are
    the [.git] test alone when [.git] is there, and otherwise the tests of
    [.git], [README.md] and [src], in this order.  In every search, from any
    start and on every candidate, what [find_project_root] returns is what
    the traced search returns, the first call is the [.git] test of the
    resolved start, a [README.md] test comes only right after the failed
    [.git] test of the same directory, and a [src] test only right after the
    successful [README.md] test of the same directory. *)
Theorem find_project_root_marker (start : path) :
  is_root_marker fs (resolve start) = true ->
  find_project_root resolve fs start = resolve start /\
  find_project_root_traced resolve fs start =
    (resolve start,
     if exists_ fs (join (resolve start) ".git")
     then [join (resolve start) ".git"]
     else [join (resolve start) ".git"; join (resolve start) "README.md";
           join (resolve start) "src"]) /\
  (forall (start' q : path) (i : nat),
      find_project_root resolve fs start'
        = fst (find_project_root_traced resolve fs start') /\
      snd (find_project_root_traced resolve fs start') !! 0
        = Some (join (resolve start') ".git") /\
      (snd (find_project_root_traced resolve fs start') !! (S i)
         = Some (join q "README.md") ->
       snd (find_project_root_traced resolve fs start') !! i = Some (join q ".git") /\
       exists_ fs (join q ".git") = false) /\
      (snd (find_project_root_traced resolve fs start') !! (S i) = Some (join q "src") ->
       snd (find_project_root_traced resolve fs start') !! i
         = Some (join q "README.md") /\
       exists_ fs (join q "README.md") = true)).
Proof.
  intros H. unfold find_project_root, find_project_root_traced.
  split; [|split].
  - destruct (resolve start) as [a ps]. simpl. by apply walk_up_marker.
  - destruct (resolve start) as [a ps]. cbn [anchor parts].
    rewrite walk_up_unfold, H. unfold is_root_marker, candidate_probes in *.
    destruct (exists_ fs (join (Path a ps) ".git")); [done|].
    cbn [orb] in H. apply andb_prop in H as [-> _]. done.
  - intros start' q i. split; [done|].
    destruct (resolve start') as [a ps]. cbn [anchor parts].
    split; [apply walk_up_first|apply walk_up_order].
Qed.

End RootLocator.

Lemma find_project_root_fallback_witness :
  (forall n, is_root_marker fs_bare (Nat.iter n parent (id proj)) = false) /\
  find_project_root id fs_bare proj = proj.
Proof.
  assert (forall n, is_root_marker fs_bare (Nat.iter n parent (id proj)) = false) as H.
  { intros n. unfold id, proj. rewrite iter_parent.
    destruct n as [|[|[|n]]]; vm_compute; reflexivity. }
  split; [exact H|]. apply (find_project_root_fallback id fs_bare proj H).
Defined.

Lemma find_project_root_marker_witness :
  is_root_marker fs_nogit (id proj) = true /\
  find_project_root_traced id fs_nogit proj =
    (proj, [join proj ".git"; join proj "README.md"; join proj "src"]).
Proof.
  split; [reflexivity|].
  apply (find_project_root_marker id fs_nogit proj). reflexivity.
Defined.

(** ** The filesystem operations and [main] *)

Lemma mkdir_parents_present (fs : gmap path node) a ps :
  fs !! Path a ps = Some Dir -> mkdir_parents fs a ps = Some fs.
Proof. intros H. destruct ps; simpl; by rewrite H. Qed.

Lemma mkdir_parents_child (fs : gmap path node) a x ps :
  fs !! Path a (x :: ps) = None -> fs !! Path a ps = Some Dir ->
  mkdir_parents fs a (x :: ps) = Some (<[Path a (x :: ps) := Dir]> fs).
Proof.
  intros H1 H2. cbn [mkdir_parents]. by rewrite H1, mkdir_parents_present.
Qed.

Lemma write_text_ok (fs : gmap path node) p t :
  fs !! parent p = Some Dir -> fs !! p <> Some Dir ->
  write_text fs p t = Some (<[p := File t]> fs).
Proof.
  intros H1 H2. unfold write_text. rewrite H1.
  destruct (fs !! p) as [[]|]; done.
Qed.

Section Main.

Variable resolve : path -> path.
Variable cwd script_dir : path.

Local Abbreviation run_main := (main resolve cwd script_dir).
Local Abbreviation the_root := (project_root resolve cwd script_dir).

(** What the two writing branches of [main] share: with the project root a
    directory, [src] absent or a directory and [RUSTDOC.md] not a directory,
    the text is stored, the line is printed and the run ends with status 0. *)
Lemma emit_ok (w : world) (root : path) (t : text) (line : string) :
  files w !! root = Some Dir ->
  files w !! join root "src" = None \/ files w !! join root "src" = Some Dir ->
  files w !! join (join root "src") "RUSTDOC.md" <> Some Dir ->
  exists w',
    emit w (join root "src") (join (join root "src") "RUSTDOC.md") t line = (w', Exit 0) /\
    files w' !! join (join root "src") "RUSTDOC.md" = Some (File t) /\
    stdout w' = stdout w ++ [line] /\ stderr w' = stderr w.
Proof.
  intros Hroot Hsrc Hout. unfold emit.
  destruct root as [a ps]. unfold join in *. simpl in *.
  assert (Path a ("RUSTDOC.md"%string :: "src"%string :: ps) <>
          Path a ("src"%string :: ps)) as Hne.
  { by intros [=]. }
  destruct Hsrc as [Hsrc|Hsrc].
  - rewrite Hsrc, mkdir_parents_present by done.
    rewrite write_text_ok.
    + eexists. split; [done|]. simpl. by rewrite lookup_insert_eq.
    + simpl. by rewrite lookup_insert_eq.
    + by rewrite lookup_insert_ne.
  - rewrite Hsrc. rewrite write_text_ok; [|done|done].
    eexists. split; [done|]. simpl. by rewrite lookup_insert_eq.
Qed.

(** C7. Missing input: when the resolved [README.md] does not exist, [main]
    prints one line naming the attempted path and the root to the error
    stream, ends with status 1, and leaves the filesystem and the standard
    output as they were. *)
Theorem main_missing_readme (w : world) (root : path) :
  the_root (files w) = root ->
  exists_ (files w) (join root "README.md") = false ->
  exists code : Z,
    code <> 0%Z /\
    run_main w =
      (World (files w) (stdout w)
             (stderr w ++ ["Error: " +:+ path_str (join root "README.md") +:+
                           " not found (root: " +:+ path_str root +:+ ")"]),
       Exit code).
Proof.
  intros Hroot Hmiss. exists 1%Z. split; [done|].
  unfold main. rewrite Hroot, Hmiss. done.
Qed.

End Main.

Lemma main_missing_readme_witness :
  project_root id proj proj fs_bare = proj /\
  exists_ fs_bare (join proj "README.md") = false /\
  exists code : Z,
    code <> 0%Z /\
    main id proj proj (World fs_bare [] []) =
      (World fs_bare [] ["Error: /home/proj/README.md not found (root: /home/proj)"%string],
       Exit code).
Proof.
  split; [reflexivity|]. split; [reflexivity|].
  apply (main_missing_readme id proj proj (World fs_bare [] []) proj); reflexivity.
Defined.
(** ** Text files as bytes *)







(** ** A [README.md] without the heading *)

Lemma exec_heading_In b w1 w2 post :
  bol_ok b = true -> w1 <> [] ->
  forallb py_isspace w1 = true -> forallb py_isspace w2 = true ->
  eol_ok post = true ->
  In (Cursor (rev w2 ++ rev (str "Modules") ++ rev w1 ++ rev (str "##") ++ b) post [])
     (exec heading_re (at_start b ((str "##" ++ w1 ++ str "Modules" ++ w2) ++ post))).
Proof.
  intros Hb Hne F1 F2 He. unfold heading_re, at_start. rewrite <- !app_assoc.
  apply exec_Seq_In. eexists. split; [rewrite exec_Bol, Hb; by left|].
  apply exec_Seq_In. eexists. split; [rewrite exec_Str_app; by left|].
  apply exec_Seq_In. eexists. split; [by apply exec_Plus_In|].
  apply exec_Seq_In. eexists. split; [rewrite exec_Str_app; by left|].
  apply exec_Seq_In. eexists. split; [by apply (greedy_In_run py_isspace _ w2)|].
  rewrite exec_Eol, He. by left.
Qed.

(** The search for the heading succeeds exactly on the texts in which the
    heading's shape occurs. *)
Lemma heading_occurs_search t : heading_occurs t <-> search heading_re t <> None.
Proof.
  split.
  - intros (pre & w1 & w2 & post & -> & Hb & Hne & F1 & F2 & He) Hs.
    rewrite search_None in Hs. specialize (Hs pre _ eq_refl).
    pose proof (exec_heading_In _ _ _ _ Hb Hne F1 F2 He) as Hin.
    rewrite Hs in Hin. destruct Hin.
  - destruct (search heading_re t) as [m|] eqn:Hs; [|done]. intros _.
    apply search_Some in Hs as (pre & post & c' & rest & -> & He & _).
    assert (In c' (exec heading_re (at_start (rev pre) post))) as Hin
        by (rewrite He; by left).
    apply exec_heading_inv in Hin as (Hb & w1 & w2 & A & _ & Hw1 & F1 & F2 & Heol).
    exists pre, w1, w2, (ahead c'). by rewrite A.
Qed.

Section MainNoHeading.

Variable resolve : path -> path.
Variable cwd script_dir : path.

Local Abbreviation run_main := (main resolve cwd script_dir).
Local Abbreviation the_root := (project_root resolve cwd script_dir).


End MainNoHeading.



(** Nor is the copy one of bytes: a file with [\r\n] line endings is read
    with [\n] line endings, and written so. *)
Lemma crlf_not_byte_identical :
  ~ (forall (bs : list octet) (t : text),
        decode_text bs = Some t -> ~ heading_occurs t -> encode_text t = Some bs).
Proof.
  intros H. specialize (H (str "a" ++ [CR; LF]) (str "a" ++ [LF]) eq_refl).
  assert (encode_text (str "a" ++ [LF]) = Some (str "a" ++ [LF])) as Hc by reflexivity.
  rewrite H in Hc; [discriminate Hc|].
  intros Ho. apply heading_occurs_search in Ho. apply Ho. reflexivity.
Qed.

(** * Further properties *)

(** ** The root locator: which directory is found *)

Section RootLocatorMore.

Variable resolve : path -> path.
Variable fs : gmap path node.

Lemma walk_up_nearest start a ps k :
  (forall n, n < k -> is_root_marker fs (Path a (skipn n ps)) = false) ->
  is_root_marker fs (Path a (skipn k ps)) = true ->
  fst (walk_up fs start a ps) = Path a (skipn k ps).
Proof.
  revert k; induction ps as [|x ps IH]; intros k Hlt Hk.
  - destruct k as [|k]; [by apply walk_up_marker|].
    specialize (Hlt 0 ltac:(lia)). simpl in *. congruence.
  - destruct k as [|k]; [by apply walk_up_marker|].
    rewrite walk_up_step by apply (Hlt 0 ltac:(lia)). simpl. apply IH; [|done].
    intros n Hn. apply (Hlt (S n)). lia.
Qed.

(** X1. Nearest marker: when the [k]-th parent of the resolved starting
    directory holds [.git], or [README.md] and [src], and no directory nearer
    to the start does, [find_project_root] returns that [k]-th parent. *)
Theorem find_project_root_nearest (start : path) (k : nat) :
  (forall n, n < k -> is_root_marker fs (Nat.iter n parent (resolve start)) = false) ->
  is_root_marker fs (Nat.iter k parent (resolve start)) = true ->
  find_project_root resolve fs start = Nat.iter k parent (resolve start).
Proof.
  unfold find_project_root, find_project_root_traced. destruct (resolve start) as [a ps]. simpl.
  intros Hlt Hk. rewrite iter_parent in *. apply walk_up_nearest; [|done].
  intros n Hn. specialize (Hlt n Hn). by rewrite iter_parent in Hlt.
Qed.

Lemma walk_up_cases start a ps :
  fst (walk_up fs start a ps) = start \/
  exists n, fst (walk_up fs start a ps) = Path a (skipn n ps) /\
            is_root_marker fs (Path a (skipn n ps)) = true.
Proof.
  induction ps as [|x ps IH].
  - destruct (is_root_marker fs (Path a [])) eqn:E.
    + right. exists 0. by rewrite walk_up_marker.
    + left. by apply walk_up_top.
  - destruct (is_root_marker fs (Path a (x :: ps))) eqn:E.
    + right. exists 0. by rewrite walk_up_marker.
    + rewrite walk_up_step by done. destruct IH as [IH|(n & IH & Hn)]; [by left|].
      right. by exists (S n).
Qed.

(** X2. What can be returned: the result of [find_project_root] is the path
    it was given, or else a directory on the way up from the resolved start
    that passes the marker test; it never returns an unmarked ancestor. *)
Theorem find_project_root_sound (start : path) :
  find_project_root resolve fs start = start \/
  exists n, find_project_root resolve fs start = Nat.iter n parent (resolve start) /\
            is_root_marker fs (find_project_root resolve fs start) = true.
Proof.
  unfold find_project_root, find_project_root_traced. destruct (resolve start) as [a ps]. simpl.
  destruct (walk_up_cases start a ps) as [H|(n & H & Hn)]; [by left|].
  right. exists n. rewrite iter_parent, H. done.
Qed.

End RootLocatorMore.

Lemma find_project_root_nearest_witness :
  (forall n, n < 1 ->
     is_root_marker fs_plain (Nat.iter n parent (id (join proj "docs"))) = false) /\
  find_project_root id fs_plain (join proj "docs") = proj.
Proof.
  assert (forall n, n < 1 ->
     is_root_marker fs_plain (Nat.iter n parent (id (join proj "docs"))) = false) as H.
  { intros n Hn. assert (n = 0) as -> by lia. reflexivity. }
  split; [exact H|].
  apply (find_project_root_nearest id fs_plain (join proj "docs") 1 H). reflexivity.
Defined.

(** ** [main]: what a run does to the filesystem *)

Lemma mkdir_parents_preserves (fs fs' : gmap path node) a ps p n :
  mkdir_parents fs a ps = Some fs' -> fs !! p = Some n -> fs' !! p = Some n.
Proof.
  revert fs'; induction ps as [|x ps IH]; intros fs'; cbn [mkdir_parents].
  - destruct (fs !! Path a []) as [[|]|] eqn:E; try done. by intros [= <-].
  - destruct (fs !! Path a (x :: ps)) as [[|]|] eqn:E; try done; [by intros [= <-]|].
    destruct (mkdir_parents fs a ps) as [fs1|]; [|done].
    intros [= <-] Hp. rewrite lookup_insert_ne; [by apply IH|].
    intros <-. congruence.
Qed.

Lemma mkdir_parents_dir (fs fs' : gmap path node) a ps :
  mkdir_parents fs a ps = Some fs' -> fs' !! Path a ps = Some Dir.
Proof.
  destruct ps as [|x ps]; cbn [mkdir_parents].
  - destruct (fs !! Path a []) as [[|]|] eqn:E; try done. by intros [= <-].
  - destruct (fs !! Path a (x :: ps)) as [[|]|] eqn:E; try done; [by intros [= <-]|].
    destruct (mkdir_parents fs a ps) as [fs1|]; [|done].
    intros [= <-]. by rewrite lookup_insert_eq.
Qed.

Lemma write_text_Some (fs fs' : gmap path node) p t :
  write_text fs p t = Some fs' ->
  fs' = <[p := File t]> fs /\ fs !! parent p = Some Dir.
Proof.
  unfold write_text. destruct (fs !! parent p) as [[|]|]; try done.
  destruct (fs !! p) as [[|]|]; try done; by intros [= <-].
Qed.

Lemma join_ne_parent p name : join p name <> p.
Proof.
  destruct p as [a ps]. unfold join. simpl. intros [= H].
  apply (f_equal (@length _)) in H. simpl in H. lia.
Qed.

(** What the writing steps of [main] have done when they end with an exit
    status, and what they leave alone however they end. *)
Lemma emit_Exit w OUTDIR t line w' code :
  emit w OUTDIR (join OUTDIR "RUSTDOC.md") t line = (w', Exit code) ->
  code = 0%Z /\
  files w' !! join OUTDIR "RUSTDOC.md" = Some (File t) /\
  files w' !! OUTDIR = Some Dir /\
  stdout w' = stdout w ++ [line] /\ stderr w' = stderr w.
Proof.
  unfold emit.
  destruct (mkdir_parents (files w) (anchor OUTDIR) (parts OUTDIR)) as [fs1|] eqn:E1;
    [|done].
  destruct (write_text fs1 (join OUTDIR "RUSTDOC.md") t) as [fs2|] eqn:E2; [|done].
  intros [= <- <-]. apply write_text_Some in E2 as [-> _].
  apply mkdir_parents_dir in E1. destruct OUTDIR as [a ps]. simpl in *.
  repeat split; try done.
  - by rewrite lookup_insert_eq.
  - rewrite lookup_insert_ne; [done|]. apply (join_ne_parent (Path a ps)).
Qed.

Lemma emit_keeps w OUTDIR OUTFILE t line p n :
  files w !! p = Some n ->
  exists n', files (fst (emit w OUTDIR OUTFILE t line)) !! p = Some n' /\
             (n = Dir <-> n' = Dir).
Proof.
  intros Hp. unfold emit.
  destruct (mkdir_parents (files w) (anchor OUTDIR) (parts OUTDIR)) as [fs1|] eqn:E1;
    [|by exists n].
  pose proof (mkdir_parents_preserves _ _ _ _ _ _ E1 Hp) as Hp1.
  destruct (write_text fs1 OUTFILE t) as [fs2|] eqn:E2; [|by exists n].
  cbn [fst print set_files files]. unfold write_text in E2.
  destruct (fs1 !! parent OUTFILE) as [[|]|]; try done.
  destruct (decide (p = OUTFILE)) as [->|Hne].
  - rewrite Hp1 in E2. destruct n as [c|]; [|done]. injection E2 as <-.
    exists (File t). by rewrite lookup_insert_eq.
  - exists n. split; [|done].
    destruct (fs1 !! OUTFILE) as [[|]|]; try done; injection E2 as <-;
      by rewrite lookup_insert_ne.
Qed.

Section MainMore.

Variable resolve : path -> path.
Variable cwd script_dir : path.

Local Abbreviation run_main := (main resolve cwd script_dir).
Local Abbreviation the_root := (project_root resolve cwd script_dir).

(** X3. Rewriting run: with a readable [README.md] that holds the heading and
    a writable output (the root a directory, [src] absent or a directory,
    [RUSTDOC.md] not a directory), [main] stores the rewritten text in
    [src/RUSTDOC.md], prints one line naming that file and the root, and ends
    with status 0. *)
Theorem main_heading_found (w : world) (root : path) (t : text) (s e : nat) :
  the_root (files w) = root ->
  files w !! join root "README.md" = Some (File t) ->
  section_span t = Some (s, e) ->
  files w !! root = Some Dir ->
  files w !! join root "src" = None \/ files w !! join root "src" = Some Dir ->
  files w !! join (join root "src") "RUSTDOC.md" <> Some Dir ->
  exists w',
    run_main w = (w', Exit 0) /\
    files w' !! join (join root "src") "RUSTDOC.md"
      = Some (File (rewrite_modules_section t)) /\
    stdout w' =
      stdout w ++ ["Created " +:+ path_str (join (join root "src") "RUSTDOC.md") +:+
                   " (project root: " +:+ path_str root +:+
                   ") with Docs.rs style links in '## Modules' section."] /\
    stderr w' = stderr w.
Proof.
  intros Hroot Hreadme Hspan Hdir Hsrc Hout.
  unfold main. rewrite Hroot. unfold exists_, read_text. rewrite Hreadme. cbn [negb].
  unfold rewrite_modules_section. rewrite Hspan.
  apply (emit_ok w root _ _ Hdir Hsrc Hout).
Qed.

(** X4. Exit status 0 is earned: whenever [main] ends with status 0, the
    [README.md] of the root was read as some text [t], [src] is a directory,
    [src/RUSTDOC.md] holds the rewriting of [t], exactly one line was added to
    the standard output and none to the error stream. *)
Theorem main_exit0_sound (w w' : world) :
  run_main w = (w', Exit 0) ->
  exists t,
    files w !! join (the_root (files w)) "README.md" = Some (File t) /\
    files w' !! join (the_root (files w)) "src" = Some Dir /\
    files w' !! join (join (the_root (files w)) "src") "RUSTDOC.md"
      = Some (File (rewrite_modules_section t)) /\
    length (stdout w') = S (length (stdout w)) /\
    stderr w' = stderr w.
Proof.
  unfold main. set (root := the_root (files w)).
  destruct (exists_ (files w) (join root "README.md")); cbn [negb]; [|done].
  unfold read_text.
  destruct (files w !! join root "README.md") as [[t|]|] eqn:Hr; try done.
  destruct (section_span t) as [[s e]|] eqn:Hs; intros H; apply emit_Exit in H
    as (_ & Hf & Hd & Ho & He); exists t;
    unfold rewrite_modules_section; rewrite Hs, Ho, length_app;
    (split; [done|split; [done|split; [done|split; [simpl; lia|done]]]]).
Qed.

(** X5. Nothing is removed: however [main] ends, every entry of the
    filesystem is still there afterwards, a directory as a directory and a
    file as a file. *)
Theorem main_keeps_entries (w : world) (p : path) (n : node) :
  files w !! p = Some n ->
  exists n', files (fst (run_main w)) !! p = Some n' /\ (n = Dir <-> n' = Dir).
Proof.
  intros Hp. unfold main. set (root := the_root (files w)) in *.
  destruct (exists_ (files w) (join root "README.md")); cbn [negb]; [|by exists n].
  destruct (read_text (files w) (join root "README.md")) as [t|]; [|by exists n].
  destruct (section_span t) as [[s e]|]; by apply emit_keeps.
Qed.


End MainMore.

Lemma main_heading_found_witness :
  exists w',
    main id proj proj
         (World (<[join proj "README.md" := File readme_modules]> fs_plain) [] [])
      = (w', Exit 0) /\
    files w' !! join (join proj "src") "RUSTDOC.md"
      = Some (File (rewrite_modules_section readme_modules)).
Proof.
  destruct (main_heading_found id proj proj
              (World (<[join proj "README.md" := File readme_modules]> fs_plain) [] [])
              proj readme_modules 18 66) as (w' & Hrun & Hfile & _).
  - reflexivity.
  - reflexivity.
  - reflexivity.
  - reflexivity.
  - left. reflexivity.
  - intros H. vm_compute in H. discriminate H.
  - exists w'. split; [exact Hrun|exact Hfile].
Defined.

Lemma main_exit0_sound_witness :
  exists t,
    fs_plain !! join (project_root id proj proj fs_plain) "README.md" = Some (File t) /\
    files (fst (main id proj proj (World fs_plain [] [])))
      !! join (join (project_root id proj proj fs_plain) "src") "RUSTDOC.md"
    = Some (File (rewrite_modules_section t)).
Proof.
  destruct (main_exit0_sound id proj proj (World fs_plain [] [])
              (fst (main id proj proj (World fs_plain [] []))))
    as (t & Hr & _ & Hf & _).
  - vm_compute. reflexivity.
  - exists t. split; [exact Hr|exact Hf].
Defined.

Lemma main_keeps_entries_witness :
  fs_plain !! join proj ".git" = Some Dir /\
  exists n',
    files (fst (main id proj proj (World fs_plain [] []))) !! join proj ".git" = Some n' /\
    (Dir = Dir <-> n' = Dir).
Proof.
  split; [reflexivity|].
  apply (main_keeps_entries id proj proj (World fs_plain [] [])). reflexivity.
Defined.

(** ** The link substitution: what is deleted and what is kept *)

Lemma relink_sublist b a : relink b a `sublist_of` a.
Proof.
  remember (length a) as n eqn:Hn. revert b a Hn.
  induction n as [n IH] using lt_wf_ind. intros b a ->.
  destruct (relink_cases b a)
    as [[-> ->]|[(y & a' & -> & -> & _)|(L & U & r & -> & _ & _ & ->)]].
  - constructor.
  - apply sublist_skip. by apply (IH (length a') ltac:(simpl; lia)).
  - apply sublist_app.
    + unfold link_repl, link_text. apply sublist_skip, sublist_app; [done|].
      apply sublist_skip, sublist_nil_l.
    + by apply (IH (length r) ltac:(rewrite length_app, link_text_length; lia)).
Qed.

(** X8. Only deletions: the rewritten text is the text read with some
    characters removed; nothing is added, changed or reordered. *)
Theorem rewrite_sublist (t : text) : rewrite_modules_section t `sublist_of` t.
Proof.
  unfold rewrite_modules_section.
  destruct (section_span t) as [[s e]|] eqn:Hspan; [|done].
  pose proof (slice_split t s e (section_span_bounds _ _ _ Hspan)) as Ht.
  rewrite <- Ht at 2. unfold rewrite_span, sub.
  apply sublist_app; [done|]. apply sublist_app; [apply relink_sublist|done].
Qed.

Lemma relink_same b a : relink b a = a <-> search_from link_re b a = None.
Proof.
  split.
  - intros H. apply relink_length_eq. by rewrite H.
  - revert b; induction a as [|x a IH]; intros b.
    + intros _. apply relink_nil.
    + cbn [search_from].
      destruct (exec link_re (at_start b (x :: a))) as [|c' rest] eqn:He; [|done].
      intros H. rewrite sub_from_nomatch by done. f_equal. by apply IH.
Qed.

(** X9. Unchanged exactly without links: the rewritten text equals the text
    read if and only if no heading is found or no link the pattern accepts
    occurs in the section body. *)
Theorem rewrite_unchanged_iff (t : text) :
  rewrite_modules_section t = t <->
  section_span t = None \/ ~ link_occurs (section_body t).
Proof.
  unfold rewrite_modules_section, section_body.
  destruct (section_span t) as [[s e]|] eqn:Hspan; [|split; [by left|done]].
  pose proof (slice_split t s e (section_span_bounds _ _ _ Hspan)) as Ht.
  rewrite link_occurs_search. unfold rewrite_span, sub, search.
  pose proof (relink_same [] (slice s e t)) as Hsame. split.
  - intros H. right. intros Hne. apply Hne, Hsame.
    rewrite <- Ht in H at 4. by apply app_inv_head, app_inv_tail in H.
  - intros [|H]; [done|].
    destruct (search_from link_re [] (slice s e t)) eqn:Hs; [by destruct H|].
    destruct Hsame as [_ Hsame]. by rewrite (Hsame eq_refl).
Qed.

Lemma relink_banged b P R :
  brackets_banged (negb (lookbehind_ok b)) P = true ->
  relink b (P ++ R) = P ++ relink (rev P ++ b) R.
Proof.
  revert b; induction P as [|x P IH]; intros b; [done|]. cbn [brackets_banged app rev].
  intros [Hx HP]%andb_prop. rewrite relink_copy.
  - rewrite <- app_assoc. f_equal. apply IH.
    change (lookbehind_ok ([x] ++ b)) with (negb (x =? BANG)%N).
    by rewrite negb_involutive.
  - destruct (lookbehind_ok b); [|by left]. right. apply link_parse_tail.
    rewrite orb_false_r in Hx. apply negb_true_iff in Hx. by rewrite Hx.
Qed.

(** X10. Image links: when every [ [ ] of the section body comes immediately
    after a [!], the text is written unchanged. *)
Theorem rewrite_images_only (t : text) :
  brackets_banged false (section_body t) = true ->
  rewrite_modules_section t = t.
Proof.
  unfold rewrite_modules_section, section_body.
  destruct (section_span t) as [[s e]|] eqn:Hspan; [|done].
  pose proof (slice_split t s e (section_span_bounds _ _ _ Hspan)) as Ht.
  intros Hb. unfold rewrite_span, sub.
  rewrite <- (app_nil_r (slice s e t)) at 1.
  rewrite (relink_banged [] (slice s e t) []) by done.
  by rewrite relink_nil, app_nil_r.
Qed.

Lemma no_lbrack_banged bg P : no_lbrack P = true -> brackets_banged bg P = true.
Proof.
  revert bg; induction P as [|x P IH]; intros bg; [done|]. cbn [no_lbrack forallb].
  intros [Hx HP]%andb_prop. cbn [brackets_banged]. rewrite Hx. by apply IH.
Qed.

(** X11. The first link: when the section body is [pre], then a link
    [[label](url)] not preceded by [!], then [post], and [pre] holds no [ [ ],
    the rewritten text has [pre] and [[label]] in their place, the URL part
    gone, followed by the substitution applied to [post]. *)
Theorem rewrite_first_link (t : text) (s e : nat) (pre L U post : text) :
  section_span t = Some (s, e) ->
  slice s e t = pre ++ link_text L U ++ post ->
  no_lbrack pre = true -> lookbehind_ok (rev pre) = true ->
  L <> [] -> U <> [] ->
  forallb not_rbrack L = true -> forallb not_rparen U = true ->
  rewrite_modules_section t =
  firstn s t ++ (pre ++ link_repl L ++
                 sub_from link_re link_repl 0 (rev (link_text L U) ++ rev pre) post)
           ++ skipn e t.
Proof.
  intros Hspan Hsl Hpre Hlb HL HU FL FU.
  unfold rewrite_modules_section. rewrite Hspan. unfold rewrite_span, sub.
  rewrite Hsl. do 2 f_equal.
  rewrite relink_banged by (by apply no_lbrack_banged).
  rewrite app_nil_r. f_equal. apply relink_match; [done|].
  by apply link_parse_text.
Qed.

Lemma rewrite_images_only_witness :
  brackets_banged false
    (section_body (str "## Modules" ++ LF :: str "![logo](logo.png) and ![b](c)")) = true /\
  rewrite_modules_section (str "## Modules" ++ LF :: str "![logo](logo.png) and ![b](c)")
  = str "## Modules" ++ LF :: str "![logo](logo.png) and ![b](c)".
Proof.
  split; [reflexivity|].
  apply (rewrite_images_only (str "## Modules" ++ LF :: str "![logo](logo.png) and ![b](c)")).
  reflexivity.
Defined.

Lemma rewrite_first_link_witness :
  slice 18 66 readme_modules
    = (LF :: str "- ") ++ link_text (str "core") (str "./core.md")
      ++ (str " does X" ++ LF :: str "- ![logo](logo.png)" ++ [LF]) /\
  firstn 27 (rewrite_modules_section readme_modules)
    = firstn 18 readme_modules ++ LF :: str "- [core]".
Proof.
  split; [reflexivity|].
  rewrite (rewrite_first_link readme_modules 18 66 (LF :: str "- ") (str "core")
             (str "./core.md") (str " does X" ++ LF :: str "- ![logo](logo.png)" ++ [LF]));
    try reflexivity; discriminate.
Defined.

(** ** The heading that is located *)

(** X12. What is located has the heading's shape: when a heading is found
    and the section body starts at [s], some line start [h] is followed, up
    to [s], by two [#], one or more whitespace characters, the word
    [Modules] and only whitespace, and [s] is at an end of line (the end of
    the text, or just before a newline, which therefore opens the body). *)
Theorem located_heading_shape (t : text) (s e : nat) :
  section_span t = Some (s, e) ->
  exists h w1 w2,
    line_start t h = true /\
    slice h s t = str "##" ++ w1 ++ str "Modules" ++ w2 /\
    s = h + length (str "##" ++ w1 ++ str "Modules" ++ w2) /\
    w1 <> [] /\ forallb py_isspace w1 = true /\ forallb py_isspace w2 = true /\
    eol_ok (skipn s t) = true.
Proof.
  unfold section_span.
  destruct (search heading_re t) as [m|] eqn:Hm; [|done]. intros Hs.
  assert (s = m_end m) as -> by (by injection Hs).
  apply search_Some in Hm as (pre & post & c' & rest & -> & He & -> & _).
  assert (In c' (exec heading_re (at_start (rev pre) post))) as Hin
      by (rewrite He; by left).
  apply exec_heading_inv in Hin as (Hb & w1 & w2 & A & B & Hw1 & F1 & F2 & Heol).
  set (hd := str "##" ++ w1 ++ str "Modules" ++ w2) in *.
  exists (length pre), w1, w2. fold hd. cbn [m_end]. rewrite B, A.
  rewrite length_app, !length_rev.
  split; [|split; [|split; [lia|split; [done|split; [done|split; [done|]]]]]].
  - destruct pre as [|x pre]; [done|].
    rewrite <- (app_nil_l ((x :: pre) ++ _)).
    by rewrite (line_start_app [] (x :: pre)).
  - unfold slice. rewrite skipn_app_length.
    replace (length hd + length pre - length pre) with (length hd) by lia.
    by rewrite firstn_app, firstn_all, Nat.sub_diag, firstn_O, app_nil_r.
  - replace (length hd + length pre) with (length (pre ++ hd))
      by (rewrite length_app; lia).
    by rewrite (app_assoc pre hd), skipn_app_length.
Qed.

Lemma located_heading_shape_witness :
  section_span readme_modules = Some (18, 66) /\
  exists h w1 w2,
    line_start readme_modules h = true /\
    slice h 18 readme_modules = str "##" ++ w1 ++ str "Modules" ++ w2.
Proof.
  split; [reflexivity|].
  destruct (located_heading_shape readme_modules 18 66) as (h & w1 & w2 & H1 & H2 & _).
  - reflexivity.
  - exists h, w1, w2. split; [exact H1|exact H2].
Defined.

(** X13. The section stays in place: when the text read has its section
    body at [(s, e)], the rewritten text has its heading at the same place
    and its section body at [(s, e')], where [e'] leaves as many characters
    after the section as [e] does in the text read. *)
Theorem rewrite_keeps_span (t : text) (s e : nat) :
  section_span t = Some (s, e) ->
  section_span (rewrite_modules_section t) =
    Some (s, length (rewrite_modules_section t) - (length t - e)).
Proof.
  intros Hspan. pose proof (section_span_bounds _ _ _ Hspan) as Hb.
  pose proof (slice_split t s e Hb) as Ht.
  unfold rewrite_modules_section. rewrite Hspan.
  rewrite rewrite_span_length_parts by done. unfold rewrite_span.
  set (before := firstn s t) in *. set (sec := slice s e t) in *.
  set (after := skipn e t) in *.
  assert (length before = s) as Hlb by (unfold before; rewrite length_firstn; lia).
  assert (length sec = e - s) as Hls.
  { unfold sec, slice. rewrite length_firstn, length_skipn. lia. }
  rewrite <- Ht in Hspan.
  replace s with (length before) in Hspan at 1 by done.
  replace e with (length before + length sec) in Hspan by lia.
  apply section_span_stable in Hspan. rewrite Hspan, Hlb. do 2 f_equal. lia.
Qed.

Lemma rewrite_keeps_span_witness :
  section_span readme_modules = Some (18, 66) /\
  section_span (rewrite_modules_section readme_modules) = Some (18, 55).
Proof.
  split; [reflexivity|].
  rewrite (rewrite_keeps_span readme_modules 18 66); reflexivity.
Defined.

(** ** When a run fails *)

Section MainFailures.

Variable resolve : path -> path.
Variable cwd script_dir : path.

Local Abbreviation run_main := (main resolve cwd script_dir).
Local Abbreviation the_root := (project_root resolve cwd script_dir).

(** X14. A directory named [README.md]: the test before reading is
    [exists()], so when [README.md] under the root is a directory the run
    gets past it, the read raises, and [main] ends with that error, having
    written and printed nothing. *)
Theorem main_readme_is_directory (w : world) :
  files w !! join (the_root (files w)) "README.md" = Some Dir ->
  run_main w = (w, Raised).
Proof.
  intros H. unfold main, exists_, read_text. by rewrite H.
Qed.

(** X15. Quiet on failure: the line on the standard output is printed
    last, so a run of the script that does not end with status 0 leaves the
    standard output as it was. *)
Theorem script_quiet_on_failure (tb : list string) (w : world) :
  snd (run_script resolve cwd script_dir tb w) <> 0%Z ->
  stdout (fst (run_script resolve cwd script_dir tb w)) = stdout w.
Proof.
  unfold run_script, main. set (root := the_root (files w)).
  destruct (exists_ (files w) (join root "README.md")); cbn [negb fst snd]; [|done].
  assert (forall OD OF t line,
             snd (emit w OD OF t line) <> Exit 0 ->
             stdout (fst (emit w OD OF t line)) = stdout w) as Hemit.
  { intros OD OF t line. unfold emit.
    destruct (mkdir_parents _ _ _) as [fs1|]; [|done].
    destruct (write_text fs1 OF t) as [fs2|]; [|done]. done. }
  destruct (read_text (files w) (join root "README.md")) as [t|]; [|done].
  destruct (section_span t) as [[s e]|];
    match goal with |- context [emit w ?OD ?OF ?t ?l] =>
      specialize (Hemit OD OF t l); destruct (emit w OD OF t l) as [w' [c|]] end;
    cbn [fst snd stdout] in *; intros H; apply Hemit; congruence.
Qed.

End MainFailures.

Lemma main_readme_is_directory_witness :
  main id proj proj (World (<[join proj "README.md" := Dir]> fs_plain) [] [])
  = (World (<[join proj "README.md" := Dir]> fs_plain) [] [], Raised).
Proof.
  apply (main_readme_is_directory id proj proj
           (World (<[join proj "README.md" := Dir]> fs_plain) [] [])).
  reflexivity.
Defined.

Lemma script_quiet_on_failure_witness :
  snd (run_script id proj proj [] (World (<[join proj "README.md" := Dir]> fs_plain) [] []))
    <> 0%Z /\
  stdout (fst (run_script id proj proj []
                 (World (<[join proj "README.md" := Dir]> fs_plain) [] []))) = [].
Proof.
  assert (snd (run_script id proj proj []
                 (World (<[join proj "README.md" := Dir]> fs_plain) [] [])) <> 0%Z) as H.
  { intros H. vm_compute in H. discriminate H. }
  split; [exact H|].
  apply (script_quiet_on_failure id proj proj []
           (World (<[join proj "README.md" := Dir]> fs_plain) [] []) H).
Defined.
